(** * DecisionTree.hpp: a binary decision-tree classifier

    A shallow embedding of [src/Algorithm/DecisionTree.hpp] and the
    properties of its training ([fit], [buildTree]) and inference
    ([predict], [predictRecursive]) procedures.

    Modelling conventions.
    - [double] is modelled by the real numbers [R] (exact arithmetic, no
      rounding, no NaN, no infinities); [std::log2 x] is [ln x / ln 2].
      Comparisons of doubles are the decidable comparisons of [R].
    - [int] is modelled by [Z]; the only [int] arithmetic of the program is
      the counting of labels, taken to stay below [2^31].
    - [std::vector] is a [list]; an access [v[i]] outside the vector is
      undefined behaviour in the source and is the fault [OutOfRange] here.
    - [std::shared_ptr<Node>] is [option Node]; dereferencing a null pointer
      is the fault [NullDeref].
    - [std::map<int,int>] is an association list kept in strictly ascending
      key order, which is the order in which the source iterates over it.
    - The recursion of [buildTree] is not structural, so the embedding takes
      a recursion budget.  [fit] grants one unit per row and one more;
      [fit_sound] shows that this budget never runs out, on any input, and
      [buildTree_fuel_monotone] that a larger budget changes nothing. *)

From Stdlib Require Import List ZArith Reals Lra Lia Permutation.
Import ListNotations.

(** ** Outcomes of partial operations *)

(** What goes wrong when an operation has no defined result. *)
Inductive fault : Set :=
| NullDeref      (* a null [shared_ptr] is dereferenced *)
| OutOfRange     (* a vector is indexed outside its bounds *)
| FuelExhausted. (* the recursion budget of the embedding ran out *)

(** The result of an operation that may be undefined. *)
Inductive outcome (A : Type) : Type :=
| Done (a : A)
| Fault (f : fault).

Arguments Done {A} a.
Arguments Fault {A} f.

(** Sequencing: the first fault ends the computation. *)
Definition bind {A B : Type} (m : outcome A) (k : A -> outcome B) : outcome B :=
  match m with
  | Done a => k a
  | Fault f => Fault f
  end.

Notation "x <- m ;; k" := (bind m (fun x => k))
  (at level 61, m at next level, right associativity).

(** [v[i]] for an [int] index [i]: a negative [int] converts to a huge
    [size_t], which is out of range as well. *)
Definition vec_at {A : Type} (v : list A) (i : Z) : outcome A :=
  if (i <? 0)%Z then Fault OutOfRange
  else match nth_error v (Z.to_nat i) with
       | Some x => Done x
       | None => Fault OutOfRange
       end.

(** ** The tree *)

#[local] Unset Elimination Schemes.

(** [struct Node] (lines 33-43), fields in the order of the source. *)
Inductive Node : Type :=
  mkNode { isLeaf : bool;
           featureIndex : Z;
           threshold : R;
           label : Z;
           left : option Node;
           right : option Node }.

#[local] Set Elimination Schemes.

(** The constructor [Node(isLeaf, label, featureIndex, threshold)]: both
    children start as null pointers. *)
Definition newNode (isLeaf : bool) (label featureIndex : Z) (threshold : R) : Node :=
  mkNode isLeaf featureIndex threshold label None None.

(** [node->left = l; node->right = r]. *)
Definition setChildren (node : Node) (l r : Node) : Node :=
  mkNode (isLeaf node) (featureIndex node) (threshold node) (label node)
         (Some l) (Some r).

(** [class DecisionTree]: its only data member is [root]. *)
Record DecisionTree : Type := mkTree { root : option Node }.

(** ** Inference *)

(** The body of [predictRecursive] (lines 94-101) on a non-null node. *)
Fixpoint predictNode (node : Node) (sample : list R) : outcome Z :=
  if isLeaf node then Done (label node)
  else
    x <- vec_at sample (featureIndex node) ;;
    if Rle_dec x (threshold node)
    then match left node with
         | Some l => predictNode l sample
         | None => Fault NullDeref
         end
    else match right node with
         | Some r => predictNode r sample
         | None => Fault NullDeref
         end.

(** [predictRecursive]: [node->isLeaf] on a null pointer is the fault
    [NullDeref]. *)
Definition predictRecursive (node : option Node) (sample : list R) : outcome Z :=
  match node with
  | Some n => predictNode n sample
  | None => Fault NullDeref
  end.

(** [predict] (lines 51-53). *)
Definition predict (self : DecisionTree) (sample : list R) : outcome Z :=
  predictRecursive (root self) sample.

(** ** Label counting: the [std::map<int,int> labelCounts] *)

(** [labelCounts[k]++] on a map kept in ascending key order. *)
Fixpoint map_incr (k : Z) (m : list (Z * Z)) : list (Z * Z) :=
  match m with
  | [] => [(k, 1%Z)]
  | (k', c) :: m' =>
      if (k <? k')%Z then (k, 1%Z) :: m
      else if (k =? k')%Z then (k', (c + 1)%Z) :: m'
      else (k', c) :: map_incr k m'
  end.

(** [for (int label : labels) labelCounts[label]++;] from the empty map. *)
Definition countLabels (labels : list Z) : list (Z * Z) :=
  fold_left (fun m l => map_incr l m) labels [].

(** ** Entropy and information gain *)

(** [std::log2]. *)
Definition log2 (x : R) : R := (ln x / ln 2)%R.

(** [calculateEntropy] (lines 103-117): the loop over the map subtracts
    [p * log2 p] from [entropy], starting at [0.0].  The operations are
    those of the real numbers: the rounding of [double] is not modelled. *)
Definition calculateEntropy (labels : list Z) : R :=
  fold_left
    (fun entropy kc =>
       let p := (IZR (snd kc) / INR (length labels))%R in
       (entropy - p * log2 p)%R)
    (countLabels labels) 0%R.

(** [calculateInformationGain] (lines 119-131), in the arithmetic of the
    real numbers as well. *)
Definition calculateInformationGain (parentLabels leftLabels rightLabels : list Z) : R :=
  let parentEntropy := calculateEntropy parentLabels in
  let leftEntropy := calculateEntropy leftLabels in
  let rightEntropy := calculateEntropy rightLabels in
  let weightLeft := (INR (length leftLabels) / INR (length parentLabels))%R in
  let weightRight := (INR (length rightLabels) / INR (length parentLabels))%R in
  (parentEntropy - (weightLeft * leftEntropy + weightRight * rightEntropy))%R.

(** ** Partitioning *)

(** [splitLabels] (lines 134-143): row [i] is tested by
    [data[i][featureIndex] <= threshold] and [labels[i]] is appended to the
    left or to the right list; running out of labels is the fault
    [OutOfRange]. *)
Fixpoint splitLabels (data : list (list R)) (labels : list Z)
         (featureIndex : Z) (threshold : R) : outcome (list Z * list Z) :=
  match data with
  | [] => Done ([], [])
  | row :: data' =>
      x <- vec_at row featureIndex ;;
      match labels with
      | [] => Fault OutOfRange
      | l :: labels' =>
          rest <- splitLabels data' labels' featureIndex threshold ;;
          Done (if Rle_dec x threshold
                then (l :: fst rest, snd rest)
                else (fst rest, l :: snd rest))
      end
  end.

(** The four vectors [splitData] returns. *)
Record Partition : Type :=
  mkPartition { leftData : list (list R);
                leftLabels : list Z;
                rightData : list (list R);
                rightLabels : list Z }.

(** [splitData] (lines 146-158): as [splitLabels], the rows being kept
    along with their labels. *)
Fixpoint splitData (data : list (list R)) (labels : list Z)
         (featureIndex : Z) (threshold : R) : outcome Partition :=
  match data with
  | [] => Done (mkPartition [] [] [] [])
  | row :: data' =>
      x <- vec_at row featureIndex ;;
      match labels with
      | [] => Fault OutOfRange
      | l :: labels' =>
          rest <- splitData data' labels' featureIndex threshold ;;
          Done (if Rle_dec x threshold
                then mkPartition (row :: leftData rest) (l :: leftLabels rest)
                                 (rightData rest) (rightLabels rest)
                else mkPartition (leftData rest) (leftLabels rest)
                                 (row :: rightData rest) (l :: rightLabels rest))
      end
  end.

(** ** Stopping criteria *)

(** [isPure] (lines 159-168): no label from position [1] onwards differs
    from [labels[0]]; the empty list passes. *)
Definition isPure (labels : list Z) : bool :=
  match labels with
  | [] => true
  | l0 :: rest => forallb (fun l => (l =? l0)%Z) rest
  end.

(** [majorityLabel] (lines 169-182): [labels[0]] is read unconditionally;
    the scan of the map keeps the first entry of greatest count. *)
Definition majorityLabel (labels : list Z) : outcome Z :=
  let labelCounts := countLabels labels in
  l0 <- vec_at labels 0 ;;
  Done (fst (fold_left
               (fun (acc : Z * Z) (kc : Z * Z) =>
                  if (snd kc >? snd acc)%Z then (fst kc, snd kc) else acc)
               labelCounts (l0, 0%Z))).

(** ** The exhaustive split search *)

(** The three local variables [bestFeature], [bestThreshold] and
    [bestInfoGain] of [buildTree]. *)
Record Best : Type :=
  mkBest { bestFeature : Z; bestThreshold : R; bestInfoGain : R }.

(** Their initial values (lines 61-63). *)
Definition initBest : Best := mkBest (-1) 0 0.

(** The inner loop [for (const auto& sample : data)] from a given
    position onwards. *)
Fixpoint searchSamples (data : list (list R)) (labels : list Z) (feature : Z)
         (samples : list (list R)) (best : Best) : outcome Best :=
  match samples with
  | [] => Done best
  | sample :: rest =>
      threshold <- vec_at sample feature ;;
      parts <- splitLabels data labels feature threshold ;;
      let infoGain := calculateInformationGain labels (fst parts) (snd parts) in
      searchSamples data labels feature rest
        (if Rgt_dec infoGain (bestInfoGain best)
         then mkBest feature threshold infoGain
         else best)
  end.

(** The outer loop over the remaining feature indices. *)
Fixpoint searchFeatures (data : list (list R)) (labels : list Z)
         (features : list Z) (best : Best) : outcome Best :=
  match features with
  | [] => Done best
  | feature :: rest =>
      best' <- searchSamples data labels feature data best ;;
      searchFeatures data labels rest best'
  end.

(** The feature indices [0, 1, ..., n - 1] the outer loop runs through. *)
Definition featureRange (n : nat) : list Z := map Z.of_nat (seq 0 n).

(** Lines 61-77 of [buildTree]: the search over all features of
    [data[0]] and all samples, from the initial values. *)
Definition findBestSplit (data : list (list R)) (labels : list Z) : outcome Best :=
  row0 <- vec_at data 0 ;;
  searchFeatures data labels (featureRange (length row0)) initBest.

(** ** Training *)

(** [buildTree] (lines 56-92). *)
Fixpoint buildTree (fuel : nat) (data : list (list R)) (labels : list Z)
  : outcome Node :=
  match fuel with
  | O => Fault FuelExhausted
  | S fuel' =>
      if isPure labels then
        l0 <- vec_at labels 0 ;;
        Done (newNode true l0 (-1) 0)
      else
        best <- findBestSplit data labels ;;
        if (bestFeature best =? -1)%Z then
          m <- majorityLabel labels ;;
          Done (newNode true m (-1) 0)
        else
          parts <- splitData data labels (bestFeature best) (bestThreshold best) ;;
          leftNode <- buildTree fuel' (leftData parts) (leftLabels parts) ;;
          rightNode <- buildTree fuel' (rightData parts) (rightLabels parts) ;;
          Done (setChildren
                  (newNode false (-1) (bestFeature best) (bestThreshold best))
                  leftNode rightNode)
  end.

(** [fit] (lines 48-50) replaces the root by the tree built from the whole
    input.  One unit of budget is spent per nesting level of [buildTree];
    [S (length data)] levels are never exceeded. *)
Definition fit (self : DecisionTree) (data : list (list R)) (labels : list Z)
  : outcome DecisionTree :=
  node <- buildTree (S (length data)) data labels ;;
  Done (mkTree (Some node)).

(** * Vocabulary of the properties *)

(** A structural induction principle for trees whose children sit under
    [option]. *)
Fixpoint Node_ind (P : Node -> Prop)
  (step : forall leaf f t l lft rgt,
      (forall n, lft = Some n -> P n) ->
      (forall n, rgt = Some n -> P n) ->
      P (mkNode leaf f t l lft rgt))
  (n : Node) : P n :=
  match n with
  | mkNode leaf f t l lft rgt =>
      step leaf f t l lft rgt
        (fun m (e : lft = Some m) =>
           match lft as o return o = Some m -> P m with
           | Some c => fun e' =>
               match e' in _ = s return
                     match s with Some m' => P m' | None => True end with
               | eq_refl => Node_ind P step c
               end
           | None => fun e' =>
               match e' in _ = s return
                     match s with Some m' => P m' | None => True end with
               | eq_refl => I
               end
           end e)
        (fun m (e : rgt = Some m) =>
           match rgt as o return o = Some m -> P m with
           | Some c => fun e' =>
               match e' in _ = s return
                     match s with Some m' => P m' | None => True end with
               | eq_refl => Node_ind P step c
               end
           | None => fun e' =>
               match e' in _ = s return
                     match s with Some m' => P m' | None => True end with
               | eq_refl => I
               end
           end e)
  end.

(** Number of occurrences of a label, as the [int] the map stores. *)
Definition occurrences (k : Z) (labels : list Z) : Z :=
  Z.of_nat (count_occ Z.eq_dec labels k).

(** [labelCounts[k]] without insertion: the stored count, or [0]. *)
Fixpoint map_get (k : Z) (m : list (Z * Z)) : Z :=
  match m with
  | [] => 0%Z
  | (k', c) :: m' => if (k =? k')%Z then c else map_get k m'
  end.

(** The representation invariant of the map: keys strictly ascending and
    every stored count positive. *)
Inductive ascending : list (Z * Z) -> Prop :=
| ascending_nil : ascending []
| ascending_cons k c m :
    (0 < c)%Z ->
    Forall (fun kc => (k < fst kc)%Z) m ->
    ascending m ->
    ascending ((k, c) :: m).

#[local] Hint Constructors ascending : core.

(** The sum of a list of reals. *)
Definition Rsum (xs : list R) : R := fold_right Rplus 0%R xs.

(** The fraction [p_c] of the labels that have class [c]. *)
Definition fraction (c : Z) (labels : list Z) : R :=
  (IZR (occurrences c labels) / INR (length labels))%R.

(** Entropy as the specification words it:
    [entropy(L) = - sum over the classes c present in L of p_c * log2 p_c]. *)
Definition entropy_spec (labels : list Z) : R :=
  (- Rsum (map (fun c => fraction c labels * log2 (fraction c labels))
               (nodup Z.eq_dec labels)))%R.

(** Information gain as the specification words it. *)
Definition gain_spec (labels leftLabels rightLabels : list Z) : R :=
  (entropy_spec labels
   - (INR (length leftLabels) / INR (length labels)) * entropy_spec leftLabels
   - (INR (length rightLabels) / INR (length labels)) * entropy_spec rightLabels)%R.

(** A list is perfectly balanced between the two classes [a] and [b]. *)
Definition balanced (a b : Z) (labels : list Z) : Prop :=
  a <> b /\ labels <> [] /\
  Forall (fun l => l = a \/ l = b) labels /\
  occurrences a labels = occurrences b labels.

(** Every row has [n] features. *)
Definition rectangular (n : nat) (data : list (list R)) : Prop :=
  Forall (fun row => length row = n) data.

(** The precondition of [fit]: a non-empty dataset of equal-length rows
    with at least one feature, and one label per row. *)
Definition fit_pre (data : list (list R)) (labels : list Z) : Prop :=
  data <> [] /\
  length data = length labels /\
  exists n, (1 <= n)%nat /\ rectangular n data.

(** The candidates [(feature, threshold)] in the order the two nested
    loops visit them: features outer, samples inner, the threshold being
    the sample's value of the feature. *)
Definition candidatesOf (feature : Z) (samples : list (list R)) : list (Z * R) :=
  map (fun sample => (feature, nth (Z.to_nat feature) sample 0%R)) samples.

(** All candidates of a dataset, feature by feature. *)
Definition candidates (data : list (list R)) : list (Z * R) :=
  flat_map (fun feature => candidatesOf feature data)
           (featureRange (length (hd [] data))).

(** The information gain of one candidate, computed as the loop body does. *)
Definition candidateGain (data : list (list R)) (labels : list Z) (c : Z * R)
  : outcome R :=
  parts <- splitLabels data labels (fst c) (snd c) ;;
  Done (calculateInformationGain labels (fst parts) (snd parts)).

(** The gain of a candidate as a number ([0] where the loop body would
    fault, which well-formed inputs exclude). *)
Definition gainAt (data : list (list R)) (labels : list Z) (c : Z * R) : R :=
  match candidateGain data labels c with
  | Done g => g
  | Fault _ => 0%R
  end.

(** One execution of the [if (infoGain > bestInfoGain)] update. *)
Definition consider (gain : Z * R -> R) (best : Best) (c : Z * R) : Best :=
  if Rgt_dec (gain c) (bestInfoGain best)
  then mkBest (fst c) (snd c) (gain c)
  else best.

(** An outcome of the program itself: a result or a fault of the source,
    not the exhaustion of the embedding's recursion budget. *)
Definition sound {A : Type} (m : outcome A) : Prop := m <> Fault FuelExhausted.

(** What the search maintains about its three variables: they are the
    initial values, or they record a candidate whose labels were split
    without fault and whose gain is strictly positive. *)
Definition justified (data : list (list R)) (labels : list Z) (best : Best) : Prop :=
  best = initBest \/
  exists parts,
    splitLabels data labels (bestFeature best) (bestThreshold best) = Done parts /\
    bestInfoGain best = calculateInformationGain labels (fst parts) (snd parts) /\
    (0 < bestInfoGain best)%R.

(** The shape every invocation of [buildTree] sees: a non-empty dataset of
    [n]-feature rows with one label per row. *)
Definition shaped (n : nat) (data : list (list R)) (labels : list Z) : Prop :=
  data <> [] /\ rectangular n data /\ length data = length labels.

(** The recursive invocations.  [invokes (d, l) (d', l')]: the call
    [buildTree(d, l)] reaches the split step and calls [buildTree(d', l')]
    on one of the two partitions. *)
Inductive invokes : list (list R) * list Z -> list (list R) * list Z -> Prop :=
| invokes_left data labels best p :
    isPure labels = false ->
    findBestSplit data labels = Done best ->
    bestFeature best <> (-1)%Z ->
    splitData data labels (bestFeature best) (bestThreshold best) = Done p ->
    invokes (data, labels) (leftData p, leftLabels p)
| invokes_right data labels best p :
    isPure labels = false ->
    findBestSplit data labels = Done best ->
    bestFeature best <> (-1)%Z ->
    splitData data labels (bestFeature best) (bestThreshold best) = Done p ->
    invokes (data, labels) (rightData p, rightLabels p).

(** The invocations, direct or nested, that a top-level call gives rise
    to (the top-level call included). *)
Inductive invoked (top : list (list R) * list Z)
  : list (list R) * list Z -> Prop :=
| invoked_top : invoked top top
| invoked_step call call' :
    invoked top call -> invokes call call' -> invoked top call'.

(** One execution of the [if (count > maxCount)] update of
    [majorityLabel]. *)
Definition moreFrequent (acc kc : Z * Z) : Z * Z :=
  if (snd kc >? snd acc)%Z then (fst kc, snd kc) else acc.

(** A strict binary tree: a leaf has no child, an internal node has both. *)
Inductive strict : Node -> Prop :=
| strict_leaf f t l :
    strict (mkNode true f t l None None)
| strict_internal f t l lft rgt :
    strict lft -> strict rgt ->
    strict (mkNode false f t l (Some lft) (Some rgt)).

(** Every decision node of the tree tests a feature below [n]. *)
Inductive indexable (n : nat) : Node -> Prop :=
| indexable_leaf f t l lft rgt :
    indexable n (mkNode true f t l lft rgt)
| indexable_internal f t l lft rgt :
    (0 <= f < Z.of_nat n)%Z ->
    indexable n lft -> indexable n rgt ->
    indexable n (mkNode false f t l (Some lft) (Some rgt)).

(** The depth of a tree: the greatest number of decision nodes on a path
    from the node to a leaf. *)
Fixpoint depth (node : Node) : nat :=
  if isLeaf node then 0%nat
  else S (Nat.max (match left node with Some l => depth l | None => 0%nat end)
                  (match right node with Some r => depth r | None => 0%nat end)).

(** The descent as the specification words it: from the current node, an
    internal node compares [sample[featureIndex] <= threshold] and moves to
    the left child on true and to the right child on false; a leaf ends
    the walk with its label.  The [nat] counts the comparisons made. *)
Inductive reaches (sample : list R) : Node -> nat -> Z -> Prop :=
| reaches_leaf node :
    isLeaf node = true ->
    reaches sample node 0 (label node)
| reaches_left node x child k lbl :
    isLeaf node = false ->
    vec_at sample (featureIndex node) = Done x ->
    (x <= threshold node)%R ->
    left node = Some child ->
    reaches sample child k lbl ->
    reaches sample node (S k) lbl
| reaches_right node x child k lbl :
    isLeaf node = false ->
    vec_at sample (featureIndex node) = Done x ->
    (x > threshold node)%R ->
    right node = Some child ->
    reaches sample child k lbl ->
    reaches sample node (S k) lbl.

(** [built node]: some call of [buildTree] returned [node]. *)
Definition built (node : Node) : Prop :=
  exists fuel data labels, buildTree fuel data labels = Done node.

(** The boundary scenario: one feature, classes separated at [2.0]. *)
Definition boundaryData : list (list R) := [[1%R]; [2%R]; [3%R]; [4%R]].
(** Its labels. *)
Definition boundaryLabels : list Z := [0%Z; 0%Z; 1%Z; 1%Z].

(** The tie scenario: both rows hold the same value. *)
Definition tieData : list (list R) := [[5%R]; [5%R]].
(** Its labels. *)
Definition tieLabels : list Z := [0%Z; 1%Z].

(** Decides the comparisons of concrete reals met while running the
    embedding on concrete data. *)
Ltac decide_reals :=
  repeat match goal with
         | |- context [Rle_dec ?a ?b] => destruct (Rle_dec a b); [try lra | try lra]
         | |- context [Rgt_dec ?a ?b] => destruct (Rgt_dec a b); [try lra | try lra]
         end.

(** The tree learnt from the boundary scenario. *)
Definition boundaryTree : Node :=
  mkNode false 0 2 (-1)
         (Some (newNode true 0 (-1) 0)) (Some (newNode true 1 (-1) 0)).

(** [x * ln (x / n)]: the contribution of a class with [x] of [n] labels,
    up to the factor [n * ln 2]. *)
Definition xlnx (x n : R) : R := (x * ln (x / n))%R.

(** The contribution of one class to [n * ln 2 * gain]: [lc] of the [l]
    left labels and [rc] of the [r] right labels have the class. *)
Definition classTerm (lc l rc r : R) : R :=
  (xlnx lc l + xlnx rc r - xlnx (lc + rc) (l + r))%R.

(** Two lists [leftLabels] and [rightLabels] split [labels]: every class
    has as many labels in the two parts together as in the whole. *)
Definition splits (labels leftLabels rightLabels : list Z) : Prop :=
  forall k, occurrences k labels =
            (occurrences k leftLabels + occurrences k rightLabels)%Z.

(** The situation C3 describes: from some input satisfying [fit]'s
    precondition, some invocation of [buildTree] selects a split whose
    threshold no row exceeds, so that the right partition is empty and the
    recursive call receives an empty dataset and an empty label list. *)
Definition empty_right_partition_reachable : Prop :=
  exists data labels d l best p,
    fit_pre data labels /\
    invoked (data, labels) (d, l) /\
    isPure l = false /\
    findBestSplit d l = Done best /\
    bestFeature best <> (-1)%Z /\
    splitData d l (bestFeature best) (bestThreshold best) = Done p /\
    rightData p = [] /\ rightLabels p = [].

(** The sum of the counts a label-count map stores. *)
Definition totalCount (m : list (Z * Z)) : Z := fold_right Z.add 0%Z (map snd m).

(** The row has a value for feature [f]. *)
Definition hasFeature (f : Z) (row : list R) : Prop :=
  exists x, vec_at row f = Done x.

(** The test [row[f] <= t] of the two split functions, on a row that has
    the feature. *)
Definition goesLeft (f : Z) (t : R) (row : list R) : bool :=
  match vec_at row f with
  | Done x => if Rle_dec x t then true else false
  | Fault _ => false
  end.

(** The number of leaves of a tree. *)
Fixpoint leafCount (node : Node) : nat :=
  if isLeaf node then 1%nat
  else ((match left node with Some l => leafCount l | None => 0%nat end)
        + (match right node with Some r => leafCount r | None => 0%nat end))%nat.

(** Every leaf of the tree carries one of the [labels], and every decision
    node tests a feature against a value that some row of [data] has for
    that feature. *)
Inductive drawnFrom (data : list (list R)) (labels : list Z) : Node -> Prop :=
| drawn_leaf f t l :
    In l labels ->
    drawnFrom data labels (mkNode true f t l None None)
| drawn_internal f t l lft rgt :
    (exists row, In row data /\ vec_at row f = Done t) ->
    drawnFrom data labels lft -> drawnFrom data labels rgt ->
    drawnFrom data labels (mkNode false f t l (Some lft) (Some rgt)).

(** Feature [f] determines the label: two rows that have the same value
    for feature [f] carry the same label. *)
Definition determinesLabel (f : Z) (data : list (list R)) (labels : list Z) : Prop :=
  forall r1 l1 r2 l2 x,
    In (r1, l1) (combine data labels) ->
    In (r2, l2) (combine data labels) ->
    vec_at r1 f = Done x -> vec_at r2 f = Done x -> l1 = l2.

(** * Properties *)

(** ** Basic facts about outcomes and vector accesses *)

Lemma bind_Done (A B : Type) (m : outcome A) (k : A -> outcome B) (b : B) :
  bind m k = Done b -> exists a, m = Done a /\ k a = Done b.
Proof.
  destruct m as [a|f]; simpl; intros H; [exists a; auto | discriminate].
Qed.

Lemma vec_at_nat (A : Type) (v : list A) (i : nat) (x : A) :
  nth_error v i = Some x -> vec_at v (Z.of_nat i) = Done x.
Proof.
  intros H. unfold vec_at.
  destruct (Z.ltb_spec (Z.of_nat i) 0); [lia|].
  now rewrite Nat2Z.id, H.
Qed.

Lemma vec_at_Done (A : Type) (v : list A) (i : Z) (x : A) :
  vec_at v i = Done x ->
  (0 <= i)%Z /\ nth_error v (Z.to_nat i) = Some x.
Proof.
  unfold vec_at. destruct (Z.ltb_spec i 0); [discriminate|].
  destruct (nth_error v (Z.to_nat i)) eqn:E; [|discriminate].
  intros [= ->]. auto.
Qed.

Lemma vec_at_in_range (A : Type) (v : list A) (i : Z) :
  (0 <= i < Z.of_nat (length v))%Z -> exists x, vec_at v i = Done x.
Proof.
  intros H. unfold vec_at. destruct (Z.ltb_spec i 0); [lia|].
  destruct (nth_error v (Z.to_nat i)) eqn:E; [eauto|].
  apply nth_error_None in E. lia.
Qed.

Lemma vec_at_head (A : Type) (x : A) (v : list A) : vec_at (x :: v) 0 = Done x.
Proof. reflexivity. Qed.

(** ** The label-count map *)

Lemma map_get_above (k : Z) (m : list (Z * Z)) :
  Forall (fun kc => (k < fst kc)%Z) m -> map_get k m = 0%Z.
Proof.
  induction 1 as [|[k' c] m H _ IH]; simpl in *; [reflexivity|].
  destruct (Z.eqb_spec k k'); [lia | exact IH].
Qed.

Lemma map_incr_keys (P : Z -> Prop) (k : Z) (m : list (Z * Z)) :
  P k -> Forall (fun kc => P (fst kc)) m ->
  Forall (fun kc => P (fst kc)) (map_incr k m).
Proof.
  intros Hk. induction 1 as [|[k' c] m H Hm IH]; simpl.
  - constructor; auto.
  - destruct (Z.ltb_spec k k'); [repeat constructor; auto|].
    destruct (Z.eqb_spec k k'); constructor; auto.
Qed.

Lemma map_incr_ascending (k : Z) (m : list (Z * Z)) :
  ascending m -> ascending (map_incr k m).
Proof.
  induction 1 as [|k' c m Hc Hab Hm IH]; simpl.
  - constructor; auto; lia.
  - destruct (Z.ltb_spec k k').
    + constructor; auto; [lia|]. constructor; simpl; [lia|].
      eapply Forall_impl; [|exact Hab]. simpl; intros; lia.
    + destruct (Z.eqb_spec k k').
      * constructor; auto; lia.
      * constructor; auto.
        apply map_incr_keys with (P := fun x => (k' < x)%Z); [lia | exact Hab].
Qed.

Lemma map_get_incr (k k' : Z) (m : list (Z * Z)) :
  ascending m ->
  map_get k' (map_incr k m) =
  (map_get k' m + (if (k' =? k)%Z then 1 else 0))%Z.
Proof.
  induction 1 as [|k0 c m Hc Hab Hm IH]; simpl.
  - destruct (Z.eqb_spec k' k); reflexivity.
  - destruct (Z.ltb_spec k k0).
    + simpl. destruct (Z.eqb_spec k' k) as [->|Hne]; [|lia].
      destruct (Z.eqb_spec k k0); [lia|].
      rewrite map_get_above; [reflexivity|].
      eapply Forall_impl; [|exact Hab]. simpl; intros; lia.
    + destruct (Z.eqb_spec k k0) as [->|Hne]; simpl.
      * destruct (Z.eqb_spec k' k0); lia.
      * destruct (Z.eqb_spec k' k0) as [->|Hne'].
        -- destruct (Z.eqb_spec k0 k); lia.
        -- exact IH.
Qed.

Lemma occurrences_cons (k l : Z) (labels : list Z) :
  occurrences k (l :: labels) =
  (occurrences k labels + (if (k =? l)%Z then 1 else 0))%Z.
Proof.
  unfold occurrences. simpl.
  destruct (Z.eq_dec l k) as [->|Hne].
  - rewrite Z.eqb_refl. lia.
  - destruct (Z.eqb_spec k l); [congruence | lia].
Qed.

Lemma countLabels_from (labels : list Z) (m : list (Z * Z)) :
  ascending m ->
  ascending (fold_left (fun m l => map_incr l m) labels m) /\
  forall k, map_get k (fold_left (fun m l => map_incr l m) labels m) =
            (map_get k m + occurrences k labels)%Z.
Proof.
  revert m. induction labels as [|l labels IH]; intros m Hm; simpl.
  - split; [exact Hm|]. intros k. unfold occurrences. simpl. lia.
  - destruct (IH (map_incr l m) (map_incr_ascending l m Hm)) as [Ha Hg].
    split; [exact Ha|]. intros k.
    rewrite Hg, map_get_incr, occurrences_cons by exact Hm. lia.
Qed.

Lemma countLabels_ascending (labels : list Z) : ascending (countLabels labels).
Proof. apply (countLabels_from labels [] ascending_nil). Qed.

Lemma countLabels_get (k : Z) (labels : list Z) :
  map_get k (countLabels labels) = occurrences k labels.
Proof.
  unfold countLabels.
  now rewrite (proj2 (countLabels_from labels [] ascending_nil)).
Qed.

Lemma ascending_In_get (m : list (Z * Z)) (k c : Z) :
  ascending m -> In (k, c) m -> map_get k m = c /\ (0 < c)%Z.
Proof.
  induction 1 as [|k0 c0 m Hc Hab Hm IH]; simpl; [tauto|].
  intros [[= -> ->]|Hin].
  - now rewrite Z.eqb_refl.
  - destruct (Z.eqb_spec k k0) as [->|Hne]; [|auto].
    rewrite Forall_forall in Hab. specialize (Hab _ Hin). simpl in Hab. lia.
Qed.

Lemma ascending_get_In (m : list (Z * Z)) (k : Z) :
  (map_get k m <> 0)%Z -> In (k, map_get k m) m.
Proof.
  induction m as [|[k0 c0] m IH]; simpl; [tauto|].
  destruct (Z.eqb_spec k k0) as [->|Hne]; auto.
Qed.

Lemma ascending_NoDup (m : list (Z * Z)) : ascending m -> NoDup (map fst m).
Proof.
  induction 1 as [|k c m Hc Hab Hm IH]; simpl; constructor; auto.
  rewrite in_map_iff. intros [[k' c'] [E Hin]]. simpl in E. subst k'.
  rewrite Forall_forall in Hab. specialize (Hab _ Hin). simpl in Hab. lia.
Qed.

Lemma occurrences_pos (k : Z) (labels : list Z) :
  (0 < occurrences k labels)%Z <-> In k labels.
Proof.
  unfold occurrences. rewrite (count_occ_In Z.eq_dec). lia.
Qed.

Lemma occurrences_nonneg (k : Z) (labels : list Z) : (0 <= occurrences k labels)%Z.
Proof. unfold occurrences. lia. Qed.

Lemma occurrences_le_length (k : Z) (labels : list Z) :
  (occurrences k labels <= Z.of_nat (length labels))%Z.
Proof.
  unfold occurrences. pose proof (count_occ_bound Z.eq_dec k labels). lia.
Qed.

(** The map holds exactly the labels present, each with its number of
    occurrences. *)
Lemma countLabels_In (labels : list Z) (k c : Z) :
  In (k, c) (countLabels labels) <-> In k labels /\ c = occurrences k labels.
Proof.
  split.
  - intros Hin.
    destruct (ascending_In_get _ k c (countLabels_ascending labels) Hin) as [Hg Hc].
    rewrite countLabels_get in Hg. subst c.
    split; [now apply occurrences_pos | reflexivity].
  - intros [Hin ->]. rewrite <- countLabels_get.
    apply ascending_get_In. rewrite countLabels_get.
    apply occurrences_pos in Hin. lia.
Qed.

Lemma countLabels_keys (labels : list Z) :
  Permutation (map fst (countLabels labels)) (nodup Z.eq_dec labels).
Proof.
  apply NoDup_Permutation.
  - apply ascending_NoDup, countLabels_ascending.
  - apply NoDup_nodup.
  - intros k. rewrite nodup_In, in_map_iff. split.
    + intros [[k' c] [E Hin]]. simpl in E. subst k'.
      now apply countLabels_In in Hin.
    + intros Hin. exists (k, occurrences k labels). split; [reflexivity|].
      now apply countLabels_In.
Qed.

Lemma countLabels_values (labels : list Z) :
  countLabels labels =
  map (fun k => (k, occurrences k labels)) (map fst (countLabels labels)).
Proof.
  assert (H : forall kc, In kc (countLabels labels) ->
                         snd kc = occurrences (fst kc) labels).
  { intros [k c] Hin. now apply countLabels_In in Hin. }
  induction (countLabels labels) as [|[k c] m IH]; simpl; [reflexivity|].
  f_equal.
  - f_equal. apply (H (k, c)). now left.
  - apply IH. intros kc Hin. apply H. now right.
Qed.

(** ** Entropy *)

Lemma Rsum_Permutation (xs ys : list R) :
  Permutation xs ys -> Rsum xs = Rsum ys.
Proof.
  induction 1; simpl; lra.
Qed.

Lemma fold_left_minus (A : Type) (f : A -> R) (xs : list A) (e : R) :
  fold_left (fun acc x => (acc - f x)%R) xs e = (e - Rsum (map f xs))%R.
Proof.
  revert e. induction xs as [|x xs IH]; intros e; simpl; [lra|].
  rewrite IH. lra.
Qed.

Lemma calculateEntropy_sum (labels : list Z) :
  calculateEntropy labels = entropy_spec labels.
Proof.
  unfold calculateEntropy, entropy_spec.
  rewrite (fold_left_minus _
             (fun kc => (IZR (snd kc) / INR (length labels)
                         * log2 (IZR (snd kc) / INR (length labels)))%R)).
  rewrite countLabels_values at 1. rewrite map_map. simpl.
  change (fun x : Z => (IZR (occurrences x labels) / INR (length labels)
                        * log2 (IZR (occurrences x labels) / INR (length labels)))%R)
    with (fun c => (fraction c labels * log2 (fraction c labels))%R).
  rewrite (Rsum_Permutation _ _
             (Permutation_map
                (fun c => (fraction c labels * log2 (fraction c labels))%R)
                (countLabels_keys labels))).
  lra.
Qed.

Lemma log2_1 : log2 1 = 0%R.
Proof. unfold log2. rewrite ln_1. unfold Rdiv. apply Rmult_0_l. Qed.

Lemma ln2_pos : (0 < ln 2)%R.
Proof. rewrite <- ln_1. apply ln_increasing; lra. Qed.

Lemma log2_half : log2 (1 / 2) = (-1)%R.
Proof.
  unfold log2. replace (1 / 2)%R with (/ 2)%R by lra.
  rewrite ln_Rinv by lra. pose proof ln2_pos. field. lra.
Qed.

Lemma plogp_nonpos (p : R) : (0 < p <= 1)%R -> (p * log2 p <= 0)%R.
Proof.
  intros [H0 H1]. unfold log2.
  assert (Hl : (ln p <= 0)%R).
  { destruct H1 as [H1| ->]; [|rewrite ln_1; lra].
    rewrite <- ln_1. left. apply ln_increasing; lra. }
  pose proof ln2_pos as H2.
  assert (Hd : (ln p / ln 2 <= 0)%R).
  { unfold Rdiv. replace 0%R with (0 * / ln 2)%R by lra.
    apply Rmult_le_compat_r; [left; now apply Rinv_0_lt_compat | exact Hl]. }
  replace 0%R with (p * 0)%R by lra.
  apply Rmult_le_compat_l; lra.
Qed.

Lemma plogp_neg (p : R) : (0 < p < 1)%R -> (p * log2 p < 0)%R.
Proof.
  intros [H0 H1]. unfold log2.
  assert (Hl : (ln p < 0)%R).
  { rewrite <- ln_1. apply ln_increasing; lra. }
  pose proof ln2_pos as H2.
  assert (Hd : (ln p / ln 2 < 0)%R).
  { unfold Rdiv. replace 0%R with (0 * / ln 2)%R by lra.
    apply Rmult_lt_compat_r; [now apply Rinv_0_lt_compat | exact Hl]. }
  replace 0%R with (p * 0)%R by lra.
  apply Rmult_lt_compat_l; lra.
Qed.

Lemma length_pos_INR (A : Type) (xs : list A) : xs <> [] -> (0 < INR (length xs))%R.
Proof.
  intros H. apply lt_0_INR. destruct xs; [congruence | simpl; lia].
Qed.

Lemma fraction_range (c : Z) (labels : list Z) :
  In c labels -> (0 < fraction c labels <= 1)%R.
Proof.
  intros Hin. unfold fraction.
  assert (Hn : (0 < INR (length labels))%R).
  { apply length_pos_INR. destruct labels; [destruct Hin | discriminate]. }
  assert (Ho : (0 < IZR (occurrences c labels))%R).
  { apply IZR_lt. now apply occurrences_pos. }
  assert (Hle : (IZR (occurrences c labels) <= INR (length labels))%R).
  { rewrite INR_IZR_INZ. apply IZR_le, occurrences_le_length. }
  split.
  - now apply Rdiv_lt_0_compat.
  - apply Rmult_le_reg_r with (r := INR (length labels)); [exact Hn|].
    unfold Rdiv. rewrite Rmult_assoc, Rinv_l by lra. lra.
Qed.

Lemma Rsum_nonpos (xs : list R) :
  Forall (fun x => (x <= 0)%R) xs -> (Rsum xs <= 0)%R.
Proof. induction 1; simpl; lra. Qed.

Lemma Rsum_neg (xs : list R) (x : R) :
  Forall (fun x => (x <= 0)%R) xs -> In x xs -> (x < 0)%R -> (Rsum xs < 0)%R.
Proof.
  induction 1 as [|y ys Hy Hys IH]; simpl; [tauto|].
  pose proof (Rsum_nonpos ys Hys).
  intros [->|Hin] Hx; [lra|]. specialize (IH Hin Hx). lra.
Qed.

Lemma entropy_terms_nonpos (labels : list Z) :
  Forall (fun x => (x <= 0)%R)
         (map (fun c => (fraction c labels * log2 (fraction c labels))%R)
              (nodup Z.eq_dec labels)).
Proof.
  rewrite Forall_map, Forall_forall. intros c Hc.
  apply plogp_nonpos, fraction_range. now apply nodup_In in Hc.
Qed.

Lemma calculateEntropy_nonneg (labels : list Z) : (0 <= calculateEntropy labels)%R.
Proof.
  rewrite calculateEntropy_sum. unfold entropy_spec.
  pose proof (Rsum_nonpos _ (entropy_terms_nonpos labels)). lra.
Qed.

Lemma isPure_cons (l0 : Z) (rest : list Z) :
  isPure (l0 :: rest) = true <-> Forall (fun l => l = l0) rest.
Proof.
  simpl. rewrite forallb_forall, Forall_forall.
  split; intros H l Hl; specialize (H l Hl);
    [now apply Z.eqb_eq | now apply Z.eqb_eq].
Qed.

Lemma isPure_false (labels : list Z) :
  isPure labels = false ->
  exists a b, In a labels /\ In b labels /\ a <> b.
Proof.
  destruct labels as [|l0 rest]; simpl; [discriminate|].
  intros H.
  assert (Hex : existsb (fun l => negb (l =? l0)%Z) rest = true).
  { clear -H. induction rest as [|x rest IH]; simpl in *; [discriminate|].
    destruct (x =? l0)%Z; simpl in *; auto. }
  apply existsb_exists in Hex. destruct Hex as [x [Hin Hx]].
  exists l0, x. repeat split; auto.
  intros ->. now rewrite Z.eqb_refl in Hx.
Qed.

Lemma occurrences_all (l0 : Z) (labels : list Z) :
  Forall (fun l => l = l0) labels ->
  occurrences l0 labels = Z.of_nat (length labels).
Proof.
  induction 1 as [|l labels -> _ IH]; [reflexivity|].
  rewrite occurrences_cons, IH, Z.eqb_refl. simpl length. lia.
Qed.

Lemma occurrences_two (a b : Z) (labels : list Z) :
  a <> b ->
  (occurrences a labels + occurrences b labels <= Z.of_nat (length labels))%Z /\
  (Forall (fun l => l = a \/ l = b) labels ->
   (occurrences a labels + occurrences b labels = Z.of_nat (length labels))%Z).
Proof.
  intros Hab. induction labels as [|l labels [IH1 IH2]].
  - split; reflexivity.
  - rewrite !occurrences_cons. simpl length.
    split.
    + destruct (Z.eqb_spec a l); destruct (Z.eqb_spec b l); try lia; congruence.
    + intros Hall. apply Forall_cons_iff in Hall. destruct Hall as [Hl Hall].
      specialize (IH2 Hall).
      destruct (Z.eqb_spec a l); destruct (Z.eqb_spec b l); try lia;
        destruct Hl; congruence.
Qed.

Lemma Rsum_zero (xs : list R) :
  Forall (fun x => x = 0%R) xs -> Rsum xs = 0%R.
Proof. induction 1; simpl; lra. Qed.

(** The entropy of a single-class list is [0]. *)
Lemma calculateEntropy_pure (labels : list Z) :
  isPure labels = true -> calculateEntropy labels = 0%R.
Proof.
  destruct labels as [|l0 rest]; [reflexivity|].
  intros Hp. apply isPure_cons in Hp.
  assert (Hall : Forall (fun l => l = l0) (l0 :: rest)) by (constructor; auto).
  rewrite calculateEntropy_sum. unfold entropy_spec.
  rewrite Rsum_zero; [lra|].
  rewrite Forall_map, Forall_forall. intros c Hc. apply nodup_In in Hc.
  rewrite Forall_forall in Hall. rewrite (Hall c Hc).
  unfold fraction. rewrite occurrences_all by (now rewrite Forall_forall).
  rewrite <- INR_IZR_INZ.
  replace (INR (length (l0 :: rest)) / INR (length (l0 :: rest)))%R with 1%R.
  - rewrite log2_1. lra.
  - pose proof (length_pos_INR _ (l0 :: rest) ltac:(discriminate)). field. lra.
Qed.

(** The entropy of a list with two different labels is positive. *)
Lemma calculateEntropy_mixed (labels : list Z) (a b : Z) :
  In a labels -> In b labels -> a <> b -> (0 < calculateEntropy labels)%R.
Proof.
  intros Ha Hb Hab. rewrite calculateEntropy_sum. unfold entropy_spec.
  enough (Rsum (map (fun c => (fraction c labels * log2 (fraction c labels))%R)
                    (nodup Z.eq_dec labels)) < 0)%R by lra.
  apply Rsum_neg with (x := (fraction a labels * log2 (fraction a labels))%R).
  - apply entropy_terms_nonpos.
  - apply in_map_iff. exists a. split; [reflexivity | now apply nodup_In].
  - apply plogp_neg. split; [now apply fraction_range|].
    unfold fraction.
    assert (Hn : (0 < INR (length labels))%R).
    { apply length_pos_INR. destruct labels; [destruct Ha | discriminate]. }
    assert (Hlt : (occurrences a labels < Z.of_nat (length labels))%Z).
    { pose proof (proj1 (occurrences_two a b labels Hab)).
      apply occurrences_pos in Hb. lia. }
    apply IZR_lt in Hlt. rewrite <- INR_IZR_INZ in Hlt.
    apply Rmult_lt_reg_r with (r := INR (length labels)); [exact Hn|].
    unfold Rdiv. rewrite Rmult_assoc, Rinv_l by lra. lra.
Qed.

(** The entropy of a perfectly balanced two-class list is [1]. *)
Lemma calculateEntropy_balanced (a b : Z) (labels : list Z) :
  balanced a b labels -> calculateEntropy labels = 1%R.
Proof.
  intros (Hab & Hne & Hall & Heq).
  pose proof (proj2 (occurrences_two a b labels Hab) Hall) as Hsum.
  pose proof (length_pos_INR _ labels Hne) as Hn.
  assert (Hlen : INR (length labels) = (2 * IZR (occurrences a labels))%R).
  { rewrite INR_IZR_INZ, <- Hsum, Heq, plus_IZR. lra. }
  assert (Hfa : fraction a labels = (1 / 2)%R).
  { unfold fraction. rewrite Hlen. field. lra. }
  assert (Hfb : fraction b labels = (1 / 2)%R).
  { unfold fraction. rewrite <- Heq, Hlen. field. lra. }
  assert (Ha : In a labels).
  { apply occurrences_pos. apply lt_IZR. lra. }
  assert (Hb : In b labels).
  { apply occurrences_pos. rewrite <- Heq. apply lt_IZR. lra. }
  rewrite calculateEntropy_sum. unfold entropy_spec.
  rewrite (Rsum_Permutation _ (map (fun c => (fraction c labels * log2 (fraction c labels))%R) [a; b])).
  - simpl. rewrite Hfa, Hfb, log2_half. lra.
  - apply Permutation_map, NoDup_Permutation.
    + apply NoDup_nodup.
    + constructor; [simpl; intros [E|[]]; congruence|].
      constructor; [simpl; tauto | constructor].
    + intros x. rewrite nodup_In. simpl. rewrite Forall_forall in Hall.
      split; [intros Hx; destruct (Hall x Hx); auto | intros [<-|[<-|[]]]; auto].
Qed.

Lemma calculateInformationGain_spec (labels leftLabels rightLabels : list Z) :
  calculateInformationGain labels leftLabels rightLabels =
  gain_spec labels leftLabels rightLabels.
Proof.
  unfold calculateInformationGain, gain_spec.
  rewrite !calculateEntropy_sum. lra.
Qed.

(** A split that sends every label to one side gains nothing. *)
Lemma gain_right_empty (labels : list Z) :
  labels <> [] -> calculateInformationGain labels labels [] = 0%R.
Proof.
  intros Hne. pose proof (length_pos_INR _ labels Hne).
  unfold calculateInformationGain. simpl. field. lra.
Qed.

Lemma gain_left_empty (labels : list Z) :
  labels <> [] -> calculateInformationGain labels [] labels = 0%R.
Proof.
  intros Hne. pose proof (length_pos_INR _ labels Hne).
  unfold calculateInformationGain. simpl. field. lra.
Qed.

(** ** Partitioning *)

Lemma splitLabels_succeeds (n : nat) (f : Z) (t : R) (data : list (list R)) :
  rectangular n data -> (0 <= f < Z.of_nat n)%Z ->
  forall labels, length data = length labels ->
  exists parts, splitLabels data labels f t = Done parts.
Proof.
  intros Hrect Hf. induction Hrect as [|row data Hrow _ IH]; intros labels Hlen.
  - simpl. eauto.
  - destruct labels as [|l labels]; [discriminate|]. simpl in Hlen.
    destruct (IH labels ltac:(lia)) as [rest Hrest].
    destruct (vec_at_in_range _ row f ltac:(lia)) as [x Hx].
    simpl. rewrite Hx. simpl. rewrite Hrest. simpl. eauto.
Qed.

Lemma splitLabels_parts (f : Z) (t : R) (data : list (list R)) :
  forall labels parts,
  splitLabels data labels f t = Done parts ->
  length data = length labels ->
  (length (fst parts) + length (snd parts) = length labels)%nat /\
  (snd parts = [] -> fst parts = labels) /\
  (fst parts = [] -> snd parts = labels).
Proof.
  induction data as [|row data IH]; intros labels parts H Hlen.
  - destruct labels; [|discriminate]. simpl in H. injection H as <-.
    simpl. auto.
  - simpl in H. apply bind_Done in H. destruct H as [x [Hx H]].
    destruct labels as [|l labels]; [discriminate|].
    apply bind_Done in H. destruct H as [rest [Hrest H]].
    injection H as <-. simpl in Hlen.
    destruct (IH labels rest Hrest ltac:(lia)) as (Hl & Hr & Hr').
    destruct (Rle_dec x t); simpl; repeat split; try discriminate; try lia.
    + intros E. now rewrite (Hr E).
    + intros E. now rewrite (Hr' E).
Qed.

Lemma splitData_labels (f : Z) (t : R) (data : list (list R)) :
  forall labels p,
  splitData data labels f t = Done p ->
  splitLabels data labels f t = Done (leftLabels p, rightLabels p).
Proof.
  induction data as [|row data IH]; intros labels p H.
  - simpl in H. injection H as <-. reflexivity.
  - simpl in H. apply bind_Done in H. destruct H as [x [Hx H]].
    destruct labels as [|l labels]; [discriminate|].
    apply bind_Done in H. destruct H as [rest [Hrest H]].
    injection H as <-. simpl. rewrite Hx. simpl.
    rewrite (IH _ _ Hrest). simpl.
    destruct (Rle_dec x t); reflexivity.
Qed.

Lemma splitData_succeeds (f : Z) (t : R) (data : list (list R)) :
  forall labels parts,
  splitLabels data labels f t = Done parts ->
  exists p, splitData data labels f t = Done p.
Proof.
  induction data as [|row data IH]; intros labels parts H.
  - simpl. eauto.
  - simpl in H. apply bind_Done in H. destruct H as [x [Hx H]].
    destruct labels as [|l labels]; [discriminate|].
    apply bind_Done in H. destruct H as [rest [Hrest H]].
    destruct (IH _ _ Hrest) as [p Hp].
    simpl. rewrite Hx. simpl. rewrite Hp. simpl. eauto.
Qed.

(** Both sides of a partition are parallel, keep the rows of the input and
    together hold all of them; the left rows pass the test and the right
    rows fail it. *)
Lemma splitData_shape (f : Z) (t : R) (data : list (list R)) :
  forall labels p,
  splitData data labels f t = Done p ->
  length (leftData p) = length (leftLabels p) /\
  length (rightData p) = length (rightLabels p) /\
  (length (leftData p) + length (rightData p) = length data)%nat /\
  (forall P : list R -> Prop, Forall P data ->
     Forall P (leftData p) /\ Forall P (rightData p)) /\
  Forall (fun row => exists x, vec_at row f = Done x /\ (x <= t)%R) (leftData p) /\
  Forall (fun row => exists x, vec_at row f = Done x /\ (x > t)%R) (rightData p).
Proof.
  induction data as [|row data IH]; intros labels p H.
  - simpl in H. injection H as <-. simpl. repeat split; auto.
  - simpl in H. apply bind_Done in H. destruct H as [x [Hx H]].
    destruct labels as [|l labels]; [discriminate|].
    apply bind_Done in H. destruct H as [rest [Hrest H]].
    injection H as <-.
    destruct (IH _ _ Hrest) as (H1 & H2 & H3 & H4 & H5 & H6).
    destruct (Rle_dec x t) as [Hle|Hgt]; simpl; repeat split; auto; try lia.
    + inversion H; subst. constructor; [assumption | now apply H4].
    + inversion H; subst. now apply H4.
    + constructor; eauto.
    + inversion H; subst. now apply H4.
    + inversion H; subst. constructor; [assumption | now apply H4].
    + constructor; auto. exists x. split; [assumption | lra].
Qed.

(** ** The split search as a scan over the candidate list *)

Lemma consider_better (gain : Z * R -> R) (best : Best) (c : Z * R) :
  (bestInfoGain best < gain c)%R ->
  consider gain best c = mkBest (fst c) (snd c) (gain c).
Proof. intros H. unfold consider. destruct (Rgt_dec _ _); [reflexivity | lra]. Qed.

Lemma consider_keeps (gain : Z * R -> R) (best : Best) (c : Z * R) :
  (gain c <= bestInfoGain best)%R -> consider gain best c = best.
Proof. intros H. unfold consider. destruct (Rgt_dec _ _); [lra | reflexivity]. Qed.

Lemma candidateGain_succeeds (n : nat) (data : list (list R)) (labels : list Z)
      (c : Z * R) :
  rectangular n data -> length data = length labels ->
  (0 <= fst c < Z.of_nat n)%Z ->
  candidateGain data labels c = Done (gainAt data labels c).
Proof.
  intros Hrect Hlen Hf.
  destruct (splitLabels_succeeds n (fst c) (snd c) data Hrect Hf labels Hlen)
    as [parts Hparts].
  unfold gainAt, candidateGain. rewrite Hparts. reflexivity.
Qed.

Lemma searchSamples_scan (n : nat) (data : list (list R)) (labels : list Z)
      (feature : Z) :
  rectangular n data -> length data = length labels ->
  (0 <= feature < Z.of_nat n)%Z ->
  forall samples best, rectangular n samples ->
  searchSamples data labels feature samples best =
  Done (fold_left (consider (gainAt data labels))
                  (candidatesOf feature samples) best).
Proof.
  intros Hrect Hlen Hf samples.
  induction samples as [|sample samples IH]; intros best Hs; [reflexivity|].
  inversion Hs as [|? ? Hrow Hs']; subst.
  destruct (vec_at_in_range _ sample feature ltac:(lia)) as [x Hx].
  pose proof (vec_at_Done _ _ _ _ Hx) as [_ Hnth].
  apply (nth_error_nth _ _ 0%R) in Hnth.
  pose proof (candidateGain_succeeds (length sample) data labels (feature, x)
                Hrect Hlen Hf) as Hg.
  unfold candidateGain in Hg. simpl in Hg.
  apply bind_Done in Hg. destruct Hg as [parts [Hparts Hg]].
  injection Hg as Hg.
  simpl. rewrite Hx. simpl. rewrite Hparts. simpl.
  rewrite IH by assumption. rewrite Hnth.
  unfold consider at 2. simpl. rewrite Hg. reflexivity.
Qed.

Lemma searchFeatures_scan (n : nat) (data : list (list R)) (labels : list Z) :
  rectangular n data -> length data = length labels ->
  forall features best,
  Forall (fun f => (0 <= f < Z.of_nat n)%Z) features ->
  searchFeatures data labels features best =
  Done (fold_left (consider (gainAt data labels))
                  (flat_map (fun f => candidatesOf f data) features) best).
Proof.
  intros Hrect Hlen features.
  induction features as [|f features IH]; intros best Hfs; [reflexivity|].
  inversion Hfs; subst. simpl.
  rewrite (searchSamples_scan n) by assumption. simpl.
  rewrite IH by assumption. now rewrite fold_left_app.
Qed.

Lemma featureRange_bounds (n : nat) :
  Forall (fun f => (0 <= f < Z.of_nat n)%Z) (featureRange n).
Proof.
  unfold featureRange. rewrite Forall_map, Forall_forall.
  intros i Hi. apply in_seq in Hi. lia.
Qed.

Lemma findBestSplit_scan (n : nat) (data : list (list R)) (labels : list Z) :
  data <> [] -> rectangular n data -> length data = length labels ->
  findBestSplit data labels =
  Done (fold_left (consider (gainAt data labels)) (candidates data) initBest).
Proof.
  intros Hne Hrect Hlen. destruct data as [|row0 data]; [congruence|].
  unfold findBestSplit, candidates. rewrite vec_at_head. simpl bind. simpl hd.
  inversion Hrect; subst.
  apply (searchFeatures_scan (length row0)); auto using featureRange_bounds.
Qed.

Section FirstMaximum.

Variable gain : Z * R -> R.

(** A scan that replaces the incumbent only on a strictly greater gain
    either keeps the initial record, when no candidate beats it, or ends
    on the first candidate of maximal gain. *)
Lemma scan_first_maximum (cs : list (Z * R)) :
  forall b0,
  (fold_left (consider gain) cs b0 = b0 /\
   Forall (fun c => (gain c <= bestInfoGain b0)%R) cs) \/
  (exists k c,
      nth_error cs k = Some c /\
      fold_left (consider gain) cs b0 = mkBest (fst c) (snd c) (gain c) /\
      (bestInfoGain b0 < gain c)%R /\
      forall j cj, nth_error cs j = Some cj ->
                   (gain cj <= gain c)%R /\ ((j < k)%nat -> (gain cj < gain c)%R)).
Proof.
  induction cs as [|c cs IH]; intros b0; simpl.
  - left. split; [reflexivity | constructor].
  - unfold consider at 2 4. destruct (Rgt_dec (gain c) (bestInfoGain b0)) as [Hgt|Hle].
    + right.
      destruct (IH (mkBest (fst c) (snd c) (gain c))) as [[E Hall]|(k & c' & Hk & E & Hlt & Hmax)];
        simpl in *.
      * exists 0%nat, c. simpl. repeat split; auto; try lra.
        -- destruct j as [|j]; simpl in H; [injection H as <-; lra|].
           rewrite Forall_forall in Hall. apply Hall.
           eapply nth_error_In; eauto.
        -- lia.
      * exists (S k), c'. simpl. repeat split; auto; try lra.
        -- destruct j as [|j]; simpl in H; [injection H as <-; lra|].
           now apply (Hmax j).
        -- intros Hj. destruct j as [|j]; simpl in H; [injection H as <-; lra|].
           apply (Hmax j); [assumption | lia].
    + destruct (IH b0) as [[E Hall]|(k & c' & Hk & E & Hlt & Hmax)].
      * left. split; [assumption|]. constructor; [lra | assumption].
      * right. exists (S k), c'. simpl. repeat split; auto.
        -- destruct j as [|j]; simpl in H; [injection H as <-; lra|].
           now apply (Hmax j).
        -- intros Hj. destruct j as [|j]; simpl in H; [injection H as <-; lra|].
           apply (Hmax j); [assumption | lia].
Qed.

End FirstMaximum.

Lemma candidates_features (n : nat) (data : list (list R)) (c : Z * R) :
  rectangular n data -> In c (candidates data) -> (0 <= fst c < Z.of_nat n)%Z.
Proof.
  intros Hrect Hin. unfold candidates in Hin.
  apply in_flat_map in Hin. destruct Hin as [f [Hf Hc]].
  unfold candidatesOf in Hc. apply in_map_iff in Hc.
  destruct Hc as [sample [<- Hs]]. simpl.
  destruct data as [|row0 data]; [destruct Hs|].
  inversion Hrect; subst. simpl in Hf.
  pose proof (featureRange_bounds (length row0)) as Hb.
  rewrite Forall_forall in Hb. now apply Hb.
Qed.

(** The candidates are exactly the feature values of the current rows. *)
Lemma candidates_exact (n : nat) (data : list (list R)) (f : Z) (t : R) :
  rectangular n data ->
  In (f, t) (candidates data) <->
  exists sample, In sample data /\ vec_at sample f = Done t.
Proof.
  intros Hrect. split.
  - intros Hin. pose proof (candidates_features n data (f, t) Hrect Hin) as Hf.
    simpl in Hf. unfold candidates in Hin.
    apply in_flat_map in Hin. destruct Hin as [f' [_ Hc]].
    unfold candidatesOf in Hc. apply in_map_iff in Hc.
    destruct Hc as [sample [E Hs]]. injection E as -> <-.
    exists sample. split; [assumption|].
    unfold rectangular in Hrect. rewrite Forall_forall in Hrect.
    destruct (vec_at_in_range _ sample f) as [x Hx];
      [rewrite (Hrect _ Hs); lia|].
    rewrite Hx. f_equal. symmetry. apply nth_error_nth.
    now apply vec_at_Done in Hx.
  - intros [sample [Hs Hx]].
    apply vec_at_Done in Hx. destruct Hx as [Hf Hnth].
    unfold candidates. apply in_flat_map. exists f. split.
    + destruct data as [|row0 data]; [destruct Hs|]. simpl.
      unfold rectangular in Hrect. rewrite Forall_forall in Hrect.
      assert (Hlt : (Z.to_nat f < length row0)%nat).
      { rewrite (Hrect row0 (or_introl eq_refl)), <- (Hrect sample Hs).
        apply nth_error_Some. congruence. }
      unfold featureRange. apply in_map_iff. exists (Z.to_nat f).
      split; [lia | apply in_seq; lia].
    + unfold candidatesOf. apply in_map_iff. exists sample.
      split; [|assumption]. f_equal. now apply nth_error_nth.
Qed.

Lemma nth_error_flat_map_blocks (A B : Type) (g : A -> list B) (m : nat) :
  (forall a, length (g a) = m) ->
  forall xs i j a,
  nth_error xs i = Some a -> (j < m)%nat ->
  nth_error (flat_map g xs) (i * m + j) = nth_error (g a) j.
Proof.
  intros Hlen. induction xs as [|x xs IH]; intros i j a Hi Hj.
  - destruct i; discriminate.
  - destruct i as [|i]; simpl in *.
    + injection Hi as ->. apply nth_error_app1. now rewrite Hlen.
    + rewrite nth_error_app2 by (rewrite Hlen; lia).
      rewrite Hlen. replace (m + i * m + j - m)%nat with (i * m + j)%nat by lia.
      now apply IH.
Qed.

(** The position of a candidate in the enumeration: the value of feature
    [i] in the row at position [j] is candidate number
    [i * length data + j], so features vary slowest. *)
Lemma candidates_position (n : nat) (data : list (list R)) (i j : nat)
      (sample : list R) (x : R) :
  rectangular n data ->
  nth_error data j = Some sample ->
  nth_error sample i = Some x ->
  nth_error (candidates data) (i * length data + j) = Some (Z.of_nat i, x).
Proof.
  intros Hrect Hj Hi.
  assert (Hin : In sample data) by (eapply nth_error_In; eauto).
  assert (Hlt : (i < n)%nat).
  { unfold rectangular in Hrect. rewrite Forall_forall in Hrect.
    rewrite <- (Hrect _ Hin). apply nth_error_Some. congruence. }
  assert (Hn : length (hd [] data) = n).
  { destruct data as [|row0 data]; [destruct Hin|]. now inversion Hrect. }
  unfold candidates. rewrite Hn.
  rewrite (nth_error_flat_map_blocks _ _
             (fun feature => candidatesOf feature data) (length data)
             ltac:(intros; unfold candidatesOf; apply length_map)
             (featureRange n) i j (Z.of_nat i)).
  - unfold candidatesOf.
    rewrite (map_nth_error _ _ _ Hj). rewrite Nat2Z.id.
    now rewrite (nth_error_nth _ _ 0%R Hi).
  - unfold featureRange. apply map_nth_error.
    rewrite nth_error_seq. destruct (Nat.ltb_spec i n); [reflexivity | lia].
  - apply nth_error_Some. congruence.
Qed.

(** The outcome of the split search on a well-formed input. *)
Lemma findBestSplit_outcome (n : nat) (data : list (list R)) (labels : list Z) :
  data <> [] -> rectangular n data -> length data = length labels ->
  exists best, findBestSplit data labels = Done best /\
  ((best = initBest /\
    forall c, In c (candidates data) -> (gainAt data labels c <= 0)%R) \/
   (exists k c,
       nth_error (candidates data) k = Some c /\
       best = mkBest (fst c) (snd c) (gainAt data labels c) /\
       (0 < gainAt data labels c)%R /\
       forall j cj, nth_error (candidates data) j = Some cj ->
                    (gainAt data labels cj <= gainAt data labels c)%R /\
                    ((j < k)%nat -> (gainAt data labels cj < gainAt data labels c)%R))).
Proof.
  intros Hne Hrect Hlen.
  rewrite (findBestSplit_scan n) by assumption.
  eexists. split; [reflexivity|].
  destruct (scan_first_maximum (gainAt data labels) (candidates data) initBest)
    as [[E Hall]|(k & c & Hk & E & Hlt & Hmax)].
  - left. split; [assumption|]. rewrite Forall_forall in Hall. exact Hall.
  - right. exists k, c. simpl in Hlt. auto.
Qed.

(** ** Recursion of [buildTree] *)

Lemma fit_pre_shaped (data : list (list R)) (labels : list Z) :
  fit_pre data labels -> exists n, shaped n data labels.
Proof.
  intros (Hne & Hlen & n & _ & Hrect). exists n. repeat split; assumption.
Qed.

Lemma shaped_labels (n : nat) (data : list (list R)) (labels : list Z) :
  shaped n data labels -> labels <> [].
Proof.
  intros (Hne & _ & Hlen) ->. destruct data; [congruence | discriminate].
Qed.

Lemma length_nil_iff (A : Type) (xs : list A) : xs = [] <-> length xs = 0%nat.
Proof. destruct xs; simpl; split; intros; try reflexivity; discriminate. Qed.

(** A winning split has positive gain, so it sends rows to both sides. *)
Lemma winning_split_proper (n : nat) (data : list (list R)) (labels : list Z)
      (best : Best) :
  shaped n data labels ->
  findBestSplit data labels = Done best ->
  bestFeature best <> (-1)%Z ->
  exists p,
    splitData data labels (bestFeature best) (bestThreshold best) = Done p /\
    shaped n (leftData p) (leftLabels p) /\
    shaped n (rightData p) (rightLabels p) /\
    (length (leftData p) < length data)%nat /\
    (length (rightData p) < length data)%nat.
Proof.
  intros Hs Hfind Hbest. pose proof (shaped_labels _ _ _ Hs) as Hlabels.
  destruct Hs as (Hne & Hrect & Hlen).
  destruct (findBestSplit_outcome n data labels Hne Hrect Hlen)
    as [best' [Hfind' Hcases]].
  rewrite Hfind in Hfind'. injection Hfind' as <-.
  destruct Hcases as [[-> _]|(k & c & Hk & -> & Hpos & _)];
    [now contradiction Hbest|].
  simpl in *.
  pose proof (candidates_features n data c Hrect (nth_error_In _ _ Hk)) as Hf.
  pose proof (candidateGain_succeeds n data labels c Hrect Hlen Hf) as Hg.
  unfold candidateGain in Hg. apply bind_Done in Hg.
  destruct Hg as [parts [Hparts Hg]]. injection Hg as Hg.
  destruct (splitData_succeeds _ _ _ _ _ Hparts) as [p Hp].
  pose proof (splitData_labels _ _ _ _ _ Hp) as Hpl.
  rewrite Hparts in Hpl. injection Hpl as ->.
  destruct (splitLabels_parts _ _ _ _ _ Hparts Hlen) as (Hsum & Hr & Hl).
  destruct (splitData_shape _ _ _ _ _ Hp) as (H1 & H2 & H3 & H4 & _ & _).
  destruct (H4 _ Hrect) as [HrectL HrectR]. simpl in *.
  assert (HL : leftLabels p <> []).
  { intros E. rewrite (Hl E), E, gain_left_empty in Hg by assumption. lra. }
  assert (HR : rightLabels p <> []).
  { intros E. rewrite (Hr E), E, gain_right_empty in Hg by assumption. lra. }
  rewrite length_nil_iff in HL, HR.
  exists p. split; [assumption|].
  repeat split; try assumption; try lia;
    rewrite length_nil_iff; lia.
Qed.

(** Under the shape above, a budget of one unit per row suffices:
    [buildTree] returns a tree. *)
Lemma buildTree_enough_fuel (n : nat) (fuel : nat) :
  forall data labels,
  shaped n data labels -> (length data <= fuel)%nat ->
  exists node, buildTree fuel data labels = Done node.
Proof.
  induction fuel as [|fuel IH]; intros data labels Hs Hfuel.
  - destruct Hs as (Hne & _). destruct data; [congruence | simpl in Hfuel; lia].
  - simpl. destruct (isPure labels) eqn:Hpure.
    + pose proof (shaped_labels _ _ _ Hs) as Hl.
      destruct labels as [|l0 rest]; [congruence|].
      rewrite vec_at_head. simpl. eauto.
    + destruct Hs as (Hne & Hrect & Hlen).
      destruct (findBestSplit_outcome n data labels Hne Hrect Hlen)
        as [best [Hfind _]].
      rewrite Hfind. simpl.
      destruct (Z.eqb_spec (bestFeature best) (-1)) as [E|Hbest].
      * unfold majorityLabel.
        destruct labels as [|l0 rest]; [destruct data; [congruence|discriminate]|].
        rewrite vec_at_head. simpl. eauto.
      * destruct (winning_split_proper n data labels best) as (p & Hp & HL & HR & HlL & HlR);
          [repeat split; assumption | assumption | assumption |].
        rewrite Hp. simpl.
        destruct (IH _ _ HL ltac:(lia)) as [ln Hln].
        destruct (IH _ _ HR ltac:(lia)) as [rn Hrn].
        rewrite Hln, Hrn. simpl. eauto.
Qed.

(** More budget never changes a returned tree. *)
Lemma buildTree_fuel_monotone (fuel : nat) :
  forall fuel' data labels node,
  buildTree fuel data labels = Done node -> (fuel <= fuel')%nat ->
  buildTree fuel' data labels = Done node.
Proof.
  induction fuel as [|fuel IH]; intros fuel' data labels node H Hle;
    [discriminate|].
  destruct fuel' as [|fuel']; [lia|]. simpl in *.
  destruct (isPure labels); [assumption|].
  destruct (findBestSplit data labels) as [best|]; [|discriminate]. simpl in *.
  destruct (bestFeature best =? -1)%Z; [assumption|].
  destruct (splitData data labels (bestFeature best) (bestThreshold best))
    as [p|]; [|discriminate]. simpl in *.
  apply bind_Done in H. destruct H as [ln [Hln H]].
  apply bind_Done in H. destruct H as [rn [Hrn H]].
  rewrite (IH fuel' _ _ _ Hln ltac:(lia)). simpl.
  rewrite (IH fuel' _ _ _ Hrn ltac:(lia)). simpl. assumption.
Qed.

Lemma fit_succeeds (self : DecisionTree) (data : list (list R)) (labels : list Z) :
  fit_pre data labels ->
  exists node, buildTree (S (length data)) data labels = Done node /\
               fit self data labels = Done (mkTree (Some node)).
Proof.
  intros Hpre. destruct (fit_pre_shaped _ _ Hpre) as [n Hs].
  destruct (buildTree_enough_fuel n (S (length data)) data labels Hs ltac:(lia))
    as [node Hnode].
  exists node. split; [assumption|]. unfold fit. now rewrite Hnode.
Qed.

Lemma invokes_shaped (n : nat) (call call' : list (list R) * list Z) :
  invokes call call' ->
  shaped n (fst call) (snd call) -> shaped n (fst call') (snd call').
Proof.
  intros Hinv Hs.
  destruct Hinv as [data labels best p Hpure Hfind Hbest Hp
                   |data labels best p Hpure Hfind Hbest Hp]; simpl in *;
    destruct (winning_split_proper n data labels best Hs Hfind Hbest)
      as (p' & Hp' & HL & HR & _);
    rewrite Hp in Hp'; injection Hp' as <-; assumption.
Qed.

Lemma invoked_shaped (n : nat) (top call : list (list R) * list Z) :
  shaped n (fst top) (snd top) -> invoked top call ->
  shaped n (fst call) (snd call).
Proof.
  intros Hs. induction 1 as [|call call' _ IH Hinv]; [assumption|].
  eapply invokes_shaped; eauto.
Qed.

Lemma buildTree_unfold (fuel : nat) (data : list (list R)) (labels : list Z) :
  buildTree (S fuel) data labels =
  if isPure labels then
    l0 <- vec_at labels 0 ;;
    Done (newNode true l0 (-1) 0)
  else
    best <- findBestSplit data labels ;;
    if (bestFeature best =? -1)%Z then
      m <- majorityLabel labels ;;
      Done (newNode true m (-1) 0)
    else
      parts <- splitData data labels (bestFeature best) (bestThreshold best) ;;
      leftNode <- buildTree fuel (leftData parts) (leftLabels parts) ;;
      rightNode <- buildTree fuel (rightData parts) (rightLabels parts) ;;
      Done (setChildren
              (newNode false (-1) (bestFeature best) (bestThreshold best))
              leftNode rightNode).
Proof. reflexivity. Qed.

(** The purity stop: a non-empty list of identical labels gives a leaf at
    once, whatever the data. *)
Lemma buildTree_pure (fuel : nat) (data : list (list R)) (l0 : Z) (rest : list Z) :
  isPure (l0 :: rest) = true ->
  buildTree (S fuel) data (l0 :: rest) = Done (newNode true l0 (-1) 0).
Proof. intros H. rewrite buildTree_unfold, H. reflexivity. Qed.

(** ** The recursion budget never runs out *)

Lemma bind_sound (A B : Type) (m : outcome A) (k : A -> outcome B) :
  sound m -> (forall a, m = Done a -> sound (k a)) -> sound (bind m k).
Proof.
  unfold sound. destruct m as [a|f]; simpl; intros Hm Hk; [now apply Hk|].
  intros [= ->]. now apply Hm.
Qed.

Lemma vec_at_sound (A : Type) (v : list A) (i : Z) : sound (vec_at v i).
Proof.
  unfold sound, vec_at. destruct (i <? 0)%Z; [discriminate|].
  destruct (nth_error v (Z.to_nat i)); discriminate.
Qed.

Lemma splitLabels_sound (f : Z) (t : R) (data : list (list R)) :
  forall labels, sound (splitLabels data labels f t).
Proof.
  induction data as [|row data IH]; intros labels; simpl; [discriminate|].
  apply bind_sound; [apply vec_at_sound|]. intros x _.
  destruct labels as [|l labels]; [discriminate|].
  apply bind_sound; [apply IH|]. discriminate.
Qed.

Lemma splitData_sound (f : Z) (t : R) (data : list (list R)) :
  forall labels, sound (splitData data labels f t).
Proof.
  induction data as [|row data IH]; intros labels; simpl; [discriminate|].
  apply bind_sound; [apply vec_at_sound|]. intros x _.
  destruct labels as [|l labels]; [discriminate|].
  apply bind_sound; [apply IH|]. discriminate.
Qed.

Lemma majorityLabel_sound (labels : list Z) : sound (majorityLabel labels).
Proof.
  unfold majorityLabel. apply bind_sound; [apply vec_at_sound|]. discriminate.
Qed.

Lemma searchSamples_sound (data : list (list R)) (labels : list Z) (feature : Z)
      (samples : list (list R)) :
  forall best, sound (searchSamples data labels feature samples best).
Proof.
  induction samples as [|sample samples IH]; intros best; simpl; [discriminate|].
  apply bind_sound; [apply vec_at_sound|]. intros t _.
  apply bind_sound; [apply splitLabels_sound|]. intros parts _. apply IH.
Qed.

Lemma searchFeatures_sound (data : list (list R)) (labels : list Z)
      (features : list Z) :
  forall best, sound (searchFeatures data labels features best).
Proof.
  induction features as [|f features IH]; intros best; simpl; [discriminate|].
  apply bind_sound; [apply searchSamples_sound|]. intros b _. apply IH.
Qed.

Lemma findBestSplit_sound (data : list (list R)) (labels : list Z) :
  sound (findBestSplit data labels).
Proof.
  unfold findBestSplit. apply bind_sound; [apply vec_at_sound|].
  intros row0 _. apply searchFeatures_sound.
Qed.

Lemma searchSamples_justified (data : list (list R)) (labels : list Z)
      (feature : Z) (samples : list (list R)) :
  forall best best',
  justified data labels best ->
  searchSamples data labels feature samples best = Done best' ->
  justified data labels best'.
Proof.
  induction samples as [|sample samples IH]; intros best best' Hj H; simpl in H.
  - now injection H as <-.
  - apply bind_Done in H. destruct H as [t [_ H]].
    apply bind_Done in H. destruct H as [parts [Hparts H]].
    eapply IH; [|exact H]. clear H IH.
    destruct (Rgt_dec (calculateInformationGain labels (fst parts) (snd parts))
                      (bestInfoGain best)) as [Hgt|_]; [|assumption].
    right. exists parts. simpl. repeat split; try assumption.
    destruct Hj as [->|(parts' & _ & _ & Hpos)]; simpl in *; lra.
Qed.

Lemma searchFeatures_justified (data : list (list R)) (labels : list Z)
      (features : list Z) :
  forall best best',
  justified data labels best ->
  searchFeatures data labels features best = Done best' ->
  justified data labels best'.
Proof.
  induction features as [|f features IH]; intros best best' Hj H; simpl in H.
  - now injection H as <-.
  - apply bind_Done in H. destruct H as [b [Hb H]].
    apply (IH b best'); [|assumption].
    now apply (searchSamples_justified data labels f data best).
Qed.

Lemma findBestSplit_justified (data : list (list R)) (labels : list Z) (best : Best) :
  findBestSplit data labels = Done best -> justified data labels best.
Proof.
  unfold findBestSplit. intros H. apply bind_Done in H.
  destruct H as [row0 [_ H]].
  eapply searchFeatures_justified; [|exact H]. now left.
Qed.

(** A selected split of a dataset with one label per row leaves rows on
    both sides, whatever the rows look like. *)
Lemma selected_split_shrinks (data : list (list R)) (labels : list Z)
      (best : Best) (p : Partition) :
  length data = length labels ->
  findBestSplit data labels = Done best ->
  bestFeature best <> (-1)%Z ->
  splitData data labels (bestFeature best) (bestThreshold best) = Done p ->
  (0 < length (leftData p) < length data)%nat /\
  (0 < length (rightData p) < length data)%nat.
Proof.
  intros Hlen Hfind Hbest Hp.
  assert (Hl : labels <> []).
  { intros ->. destruct data; [|discriminate]. discriminate. }
  destruct (findBestSplit_justified _ _ _ Hfind)
    as [->|(parts & Hparts & Hgain & Hpos)]; [now contradiction Hbest|].
  pose proof (splitData_labels _ _ _ _ _ Hp) as Hpl.
  rewrite Hparts in Hpl. injection Hpl as ->.
  destruct (splitLabels_parts _ _ _ _ _ Hparts Hlen) as (Hsum & Hr & Hl').
  destruct (splitData_shape _ _ _ _ _ Hp) as (H1 & H2 & H3 & _).
  simpl in *.
  assert (HL : leftLabels p <> []).
  { intros E. rewrite (Hl' E), E, gain_left_empty in Hgain by assumption. lra. }
  assert (HR : rightLabels p <> []).
  { intros E. rewrite (Hr E), E, gain_right_empty in Hgain by assumption. lra. }
  rewrite length_nil_iff in HL, HR. lia.
Qed.

Lemma buildTree_sound_parallel (fuel : nat) :
  forall data labels,
  length data = length labels -> (length data <= fuel)%nat -> (1 <= fuel)%nat ->
  sound (buildTree fuel data labels).
Proof.
  induction fuel as [|fuel IH]; intros data labels Hlen Hfuel Hpos; [lia|].
  rewrite buildTree_unfold. destruct (isPure labels).
  - apply bind_sound; [apply vec_at_sound | discriminate].
  - apply bind_sound; [apply findBestSplit_sound|]. intros best Hfind.
    destruct (Z.eqb_spec (bestFeature best) (-1)) as [_|Hbest].
    + apply bind_sound; [apply majorityLabel_sound | discriminate].
    + apply bind_sound; [apply splitData_sound|]. intros p Hp.
      destruct (selected_split_shrinks data labels best p Hlen Hfind Hbest Hp)
        as [HL HR].
      destruct (splitData_shape _ _ _ _ _ Hp) as (H1 & H2 & _).
      apply bind_sound; [apply IH; lia|]. intros lft _.
      apply bind_sound; [apply IH; lia|]. discriminate.
Qed.

(** [fit] never stops for lack of budget, on any input: its outcome is a
    tree or a fault of the source itself. *)
Lemma fit_sound (self : DecisionTree) (data : list (list R)) (labels : list Z) :
  sound (fit self data labels).
Proof.
  unfold fit. apply bind_sound; [|discriminate].
  rewrite buildTree_unfold. destruct (isPure labels).
  - apply bind_sound; [apply vec_at_sound | discriminate].
  - apply bind_sound; [apply findBestSplit_sound|]. intros best Hfind.
    destruct (Z.eqb_spec (bestFeature best) (-1)) as [_|Hbest].
    + apply bind_sound; [apply majorityLabel_sound | discriminate].
    + apply bind_sound; [apply splitData_sound|]. intros p Hp.
      destruct (splitData_shape _ _ _ _ _ Hp) as (H1 & H2 & H3 & _).
      assert (Hne : data <> []).
      { intros ->. unfold findBestSplit in Hfind. discriminate. }
      assert (0 < length data)%nat by (destruct data; [congruence | simpl; lia]).
      apply bind_sound; [apply buildTree_sound_parallel; lia|]. intros lft _.
      apply bind_sound; [apply buildTree_sound_parallel; lia|]. discriminate.
Qed.

(** ** The majority label *)

Lemma majority_scan (m : list (Z * Z)) :
  forall acc,
  (fold_left moreFrequent m acc = acc /\
   Forall (fun kc => (snd kc <= snd acc)%Z) m) \/
  (exists k kc,
      nth_error m k = Some kc /\
      fold_left moreFrequent m acc = kc /\
      (snd acc < snd kc)%Z /\
      forall j kcj, nth_error m j = Some kcj ->
                    (snd kcj <= snd kc)%Z /\ ((j < k)%nat -> (snd kcj < snd kc)%Z)).
Proof.
  induction m as [|[x cx] m IH]; intros acc; simpl.
  - left. split; [reflexivity | constructor].
  - unfold moreFrequent at 2 4. simpl.
    destruct (Z.gtb_spec cx (snd acc)) as [Hgt|Hle].
    + right.
      destruct (IH (x, cx)) as [[E Hall]|(k & kc & Hk & E & Hlt & Hmax)]; simpl in *.
      * exists 0%nat, (x, cx). simpl. repeat split; auto; try lia.
        destruct j as [|j]; simpl in H; [injection H as <-; simpl; lia|].
        rewrite Forall_forall in Hall. apply Hall.
        eapply nth_error_In; eauto.
      * exists (S k), kc. simpl. repeat split; auto; try lia.
        -- destruct j as [|j]; simpl in H; [injection H as <-; simpl; lia|].
           now apply (Hmax j).
        -- intros Hj. destruct j as [|j]; simpl in H; [injection H as <-; simpl; lia|].
           apply (Hmax j); [assumption | lia].
    + destruct (IH acc) as [[E Hall]|(k & kc & Hk & E & Hlt & Hmax)].
      * left. split; [assumption|]. constructor; [simpl; lia | assumption].
      * right. exists (S k), kc. simpl. repeat split; auto.
        -- destruct j as [|j]; simpl in H; [injection H as <-; simpl; lia|].
           now apply (Hmax j).
        -- intros Hj. destruct j as [|j]; simpl in H; [injection H as <-; simpl; lia|].
           apply (Hmax j); [assumption | lia].
Qed.

Lemma ascending_nth (m : list (Z * Z)) :
  ascending m ->
  forall i j a b, (i < j)%nat ->
  nth_error m i = Some a -> nth_error m j = Some b -> (fst a < fst b)%Z.
Proof.
  induction 1 as [|k c m Hc Hab Hm IH]; intros i j a b Hij Hi Hj.
  - destruct i; discriminate.
  - destruct j as [|j]; [lia|]. simpl in Hj. destruct i as [|i]; simpl in Hi.
    + injection Hi as <-. simpl. rewrite Forall_forall in Hab.
      apply (Hab b). eapply nth_error_In; eauto.
    + apply (IH i j); [lia | assumption | assumption].
Qed.

(** [majorityLabel] returns a most frequent label, and the smallest one
    among the most frequent. *)
Lemma majorityLabel_spec (labels : list Z) :
  labels <> [] ->
  exists m, majorityLabel labels = Done m /\
            In m labels /\
            (forall x, (occurrences x labels <= occurrences m labels)%Z) /\
            (forall x, occurrences x labels = occurrences m labels -> (m <= x)%Z).
Proof.
  intros Hne. destruct labels as [|l0 rest]; [congruence|].
  unfold majorityLabel. rewrite vec_at_head. simpl bind.
  set (labels := l0 :: rest) in *.
  change (fun acc kc : Z * Z => if (snd kc >? snd acc)%Z then (fst kc, snd kc) else acc)
    with moreFrequent.
  eexists. split; [reflexivity|].
  pose proof (countLabels_ascending labels) as Hasc.
  destruct (majority_scan (countLabels labels) (l0, 0%Z))
    as [[_ Hall]|(k & [m c] & Hk & -> & _ & Hmax)].
  - exfalso. rewrite Forall_forall in Hall.
    assert (Hin : In (l0, occurrences l0 labels) (countLabels labels)).
    { apply countLabels_In. split; [now left | reflexivity]. }
    specialize (Hall _ Hin). simpl in Hall.
    assert (0 < occurrences l0 labels)%Z by (apply occurrences_pos; now left).
    lia.
  - simpl. pose proof (nth_error_In _ _ Hk) as Hin.
    apply countLabels_In in Hin. destruct Hin as [Hm ->].
    split; [assumption|].
    assert (Hx : forall x, In x labels ->
                 exists j, nth_error (countLabels labels) j = Some (x, occurrences x labels)).
    { intros x Hx. apply In_nth_error, countLabels_In. auto. }
    split.
    + intros x. destruct (in_dec Z.eq_dec x labels) as [Hin|Hnin].
      * destruct (Hx x Hin) as [j Hj]. now apply (Hmax j _ Hj).
      * assert (~ (0 < occurrences x labels)%Z) by now rewrite occurrences_pos.
        apply occurrences_pos in Hm. lia.
    + intros x Heq.
      assert (Hin : In x labels).
      { apply occurrences_pos. rewrite Heq. now apply occurrences_pos. }
      destruct (Hx x Hin) as [j Hj].
      destruct (Nat.lt_trichotomy j k) as [Hlt|[->|Hgt]].
      * destruct (Hmax j _ Hj) as [_ Hs]. specialize (Hs Hlt). simpl in Hs. lia.
      * rewrite Hk in Hj. injection Hj as ->. lia.
      * pose proof (ascending_nth _ Hasc k j _ _ Hgt Hk Hj). simpl in *. lia.
Qed.

(** ** Shape of trees and the descent of [predict] *)

Lemma predictNode_reaches (sample : list R) (node : Node) :
  forall lbl, predictNode node sample = Done lbl ->
  exists k, reaches sample node k lbl /\ (k <= depth node)%nat.
Proof.
  induction node as [leaf f t l lft rgt IHl IHr] using Node_ind.
  intros lbl H. simpl in H.
  destruct leaf.
  - injection H as <-. exists 0%nat. split; [now apply reaches_leaf | lia].
  - apply bind_Done in H. destruct H as [x [Hx H]]. simpl.
    destruct (Rle_dec x t) as [Hle|Hgt].
    + destruct lft as [child|]; [|discriminate].
      destruct (IHl child eq_refl lbl H) as [k [Hk Hd]].
      exists (S k). split; [|lia].
      apply reaches_left with (x := x) (child := child); simpl; auto.
    + destruct rgt as [child|]; [|discriminate].
      destruct (IHr child eq_refl lbl H) as [k [Hk Hd]].
      exists (S k). split; [|lia].
      apply reaches_right with (x := x) (child := child); simpl; auto; lra.
Qed.

Lemma reaches_predictNode (sample : list R) (node : Node) (k : nat) (lbl : Z) :
  reaches sample node k lbl -> predictNode node sample = Done lbl.
Proof.
  induction 1 as [node Hleaf
                 |node x child k lbl Hleaf Hx Hle Hchild _ IH
                 |node x child k lbl Hleaf Hx Hgt Hchild _ IH];
    destruct node as [leaf f t l lft rgt]; simpl in *; subst.
  - reflexivity.
  - rewrite Hx. simpl. destruct (Rle_dec x t); [assumption | lra].
  - rewrite Hx. simpl. destruct (Rle_dec x t); [lra | assumption].
Qed.

Lemma predictNode_total (n : nat) (sample : list R) (node : Node) :
  indexable n node -> length sample = n ->
  exists lbl, predictNode node sample = Done lbl.
Proof.
  intros Hidx Hlen.
  induction Hidx as [f t l lft rgt|f t l lft rgt Hf _ [ll IHl] _ [lr IHr]]; simpl.
  - eauto.
  - destruct (vec_at_in_range _ sample f ltac:(lia)) as [x Hx].
    rewrite Hx. simpl. destruct (Rle_dec x t); eauto.
Qed.

Lemma predictNode_no_null (sample : list R) (node : Node) :
  strict node -> predictNode node sample <> Fault NullDeref.
Proof.
  induction 1 as [f t l|f t l lft rgt _ IHl _ IHr]; simpl; [discriminate|].
  unfold vec_at. destruct (f <? 0)%Z; simpl; [discriminate|].
  destruct (nth_error sample (Z.to_nat f)) as [x|]; simpl; [|discriminate].
  destruct (Rle_dec x t); assumption.
Qed.

Lemma predictNode_faults (sample : list R) (node : Node) (f : fault) :
  strict node -> predictNode node sample = Fault f -> f = OutOfRange.
Proof.
  induction 1 as [f' t l|f' t l lft rgt _ IHl _ IHr]; simpl; [discriminate|].
  unfold vec_at. destruct (f' <? 0)%Z; simpl; [congruence|].
  destruct (nth_error sample (Z.to_nat f')) as [x|]; simpl; [|congruence].
  destruct (Rle_dec x t); assumption.
Qed.

(** ** Trees built by [buildTree] *)

Lemma buildTree_cases (fuel : nat) (data : list (list R)) (labels : list Z)
      (node : Node) :
  buildTree fuel data labels = Done node ->
  (exists l, node = newNode true l (-1) 0) \/
  (exists fuel' best p lft rgt,
      fuel = S fuel' /\
      isPure labels = false /\
      findBestSplit data labels = Done best /\
      bestFeature best <> (-1)%Z /\
      splitData data labels (bestFeature best) (bestThreshold best) = Done p /\
      buildTree fuel' (leftData p) (leftLabels p) = Done lft /\
      buildTree fuel' (rightData p) (rightLabels p) = Done rgt /\
      node = mkNode false (bestFeature best) (bestThreshold best) (-1)
                    (Some lft) (Some rgt)).
Proof.
  destruct fuel as [|fuel]; [discriminate|]. simpl.
  destruct (isPure labels) eqn:Hpure.
  - intros H. apply bind_Done in H. destruct H as [l0 [_ H]].
    injection H as <-. eauto.
  - intros H. apply bind_Done in H. destruct H as [best [Hfind H]].
    destruct (Z.eqb_spec (bestFeature best) (-1)) as [E|Hbest].
    + apply bind_Done in H. destruct H as [m [_ H]]. injection H as <-. eauto.
    + apply bind_Done in H. destruct H as [p [Hp H]].
      apply bind_Done in H. destruct H as [lft [Hl H]].
      apply bind_Done in H. destruct H as [rgt [Hr H]].
      injection H as <-. right. exists fuel, best, p, lft, rgt.
      repeat split; auto.
Qed.

Lemma buildTree_strict (fuel : nat) :
  forall data labels node,
  buildTree fuel data labels = Done node -> strict node.
Proof.
  induction fuel as [|fuel IH]; intros data labels node H; [discriminate|].
  destruct (buildTree_cases _ _ _ _ H)
    as [[l ->]|(fuel' & best & p & lft & rgt & E & _ & _ & _ & _ & Hl & Hr & ->)].
  - constructor.
  - injection E as <-. constructor; eauto.
Qed.

Lemma buildTree_indexable (n : nat) (fuel : nat) :
  forall data labels node,
  shaped n data labels ->
  buildTree fuel data labels = Done node -> indexable n node.
Proof.
  induction fuel as [|fuel IH]; intros data labels node Hs H; [discriminate|].
  destruct (buildTree_cases _ _ _ _ H)
    as [[l ->]|(fuel' & best & p & lft & rgt & E & _ & Hfind & Hbest & Hp & Hl & Hr & ->)].
  - constructor.
  - injection E as <-.
    destruct (winning_split_proper n data labels best Hs Hfind Hbest)
      as (p' & Hp' & HL & HR & _).
    rewrite Hp in Hp'. injection Hp' as <-.
    destruct Hs as (Hne & Hrect & Hlen).
    destruct (findBestSplit_outcome n data labels Hne Hrect Hlen)
      as [best' [Hfind' Hcases]].
    rewrite Hfind in Hfind'. injection Hfind' as <-.
    destruct Hcases as [[-> _]|(k & c & Hk & -> & _)]; [now contradiction Hbest|].
    simpl in *.
    pose proof (candidates_features n data c Hrect (nth_error_In _ _ Hk)).
    constructor; eauto.
Qed.

(** ** Two concrete datasets *)

Lemma fit_pre_boundary : fit_pre boundaryData boundaryLabels.
Proof.
  split; [discriminate|]. split; [reflexivity|].
  exists 1%nat. split; [lia|]. repeat constructor.
Qed.

Lemma fit_pre_tie : fit_pre tieData tieLabels.
Proof.
  split; [discriminate|]. split; [reflexivity|].
  exists 1%nat. split; [lia|]. repeat constructor.
Qed.

Lemma tie_candidates : candidates tieData = [(0%Z, 5%R); (0%Z, 5%R)].
Proof. reflexivity. Qed.

Lemma tie_split : splitLabels tieData tieLabels 0 5 = Done ([0%Z; 1%Z], []).
Proof. simpl. decide_reals. reflexivity. Qed.

Lemma tie_gain : candidateGain tieData tieLabels (0%Z, 5%R) = Done 0%R.
Proof.
  unfold candidateGain. simpl fst. simpl snd. rewrite tie_split. simpl bind.
  f_equal. apply (gain_right_empty tieLabels). discriminate.
Qed.

Lemma gainAt_Done (data : list (list R)) (labels : list Z) (c : Z * R) (g : R) :
  candidateGain data labels c = Done g -> gainAt data labels c = g.
Proof. unfold gainAt. now intros ->. Qed.

(** No split gains more than the entropy of the labels it splits. *)
Lemma gain_le_entropy (labels leftLabels rightLabels : list Z) :
  labels <> [] ->
  (calculateInformationGain labels leftLabels rightLabels
   <= calculateEntropy labels)%R.
Proof.
  intros Hne. unfold calculateInformationGain. cbv zeta.
  pose proof (length_pos_INR _ labels Hne) as Hn.
  pose proof (calculateEntropy_nonneg leftLabels) as HL.
  pose proof (calculateEntropy_nonneg rightLabels) as HR.
  pose proof (pos_INR (length leftLabels)) as Hl.
  pose proof (pos_INR (length rightLabels)) as Hr.
  assert (Hwl : (0 <= INR (length leftLabels) / INR (length labels))%R).
  { apply Rmult_le_pos; [assumption | left; now apply Rinv_0_lt_compat]. }
  assert (Hwr : (0 <= INR (length rightLabels) / INR (length labels))%R).
  { apply Rmult_le_pos; [assumption | left; now apply Rinv_0_lt_compat]. }
  pose proof (Rmult_le_pos _ _ Hwl HL). pose proof (Rmult_le_pos _ _ Hwr HR).
  lra.
Qed.

Lemma boundary_entropy : calculateEntropy boundaryLabels = 1%R.
Proof.
  apply (calculateEntropy_balanced 0 1). unfold balanced, boundaryLabels.
  split; [discriminate|]. split; [discriminate|].
  split; [|reflexivity].
  repeat (apply Forall_cons; [auto|]). constructor.
Qed.

Lemma boundary_candidates :
  candidates boundaryData = [(0%Z, 1%R); (0%Z, 2%R); (0%Z, 3%R); (0%Z, 4%R)].
Proof. reflexivity. Qed.

Lemma boundary_split_1 :
  splitLabels boundaryData boundaryLabels 0 1 = Done ([0%Z], [0%Z; 1%Z; 1%Z]).
Proof. simpl. decide_reals. reflexivity. Qed.

Lemma boundary_split_2 :
  splitLabels boundaryData boundaryLabels 0 2 = Done ([0%Z; 0%Z], [1%Z; 1%Z]).
Proof. simpl. decide_reals. reflexivity. Qed.

Lemma boundary_split_3 :
  splitLabels boundaryData boundaryLabels 0 3 = Done ([0%Z; 0%Z; 1%Z], [1%Z]).
Proof. simpl. decide_reals. reflexivity. Qed.

Lemma boundary_split_4 :
  splitLabels boundaryData boundaryLabels 0 4 = Done ([0%Z; 0%Z; 1%Z; 1%Z], []).
Proof. simpl. decide_reals. reflexivity. Qed.

Lemma boundary_gain_1 :
  exists g, candidateGain boundaryData boundaryLabels (0%Z, 1%R) = Done g /\ (g < 1)%R.
Proof.
  unfold candidateGain. simpl fst. simpl snd. rewrite boundary_split_1. simpl bind.
  eexists. split; [reflexivity|].
  unfold calculateInformationGain. cbv zeta. rewrite boundary_entropy.
  assert (H0 : calculateEntropy [0%Z] = 0%R) by (now apply calculateEntropy_pure).
  assert (H1 : (0 < calculateEntropy [0%Z; 1%Z; 1%Z])%R).
  { apply (calculateEntropy_mixed _ 0 1); simpl; auto. discriminate. }
  rewrite H0. simpl length. simpl INR. lra.
Qed.

Lemma boundary_gain_2 :
  candidateGain boundaryData boundaryLabels (0%Z, 2%R) = Done 1%R.
Proof.
  unfold candidateGain. simpl fst. simpl snd. rewrite boundary_split_2. simpl bind.
  f_equal. unfold calculateInformationGain. cbv zeta. rewrite boundary_entropy.
  assert (H0 : calculateEntropy [0%Z; 0%Z] = 0%R) by (now apply calculateEntropy_pure).
  assert (H1 : calculateEntropy [1%Z; 1%Z] = 0%R) by (now apply calculateEntropy_pure).
  rewrite H0, H1. lra.
Qed.

Lemma boundary_gain_le (t : R) :
  (gainAt boundaryData boundaryLabels (0%Z, t) <= 1)%R.
Proof.
  unfold gainAt, candidateGain.
  destruct (splitLabels boundaryData boundaryLabels (fst (0%Z, t)) (snd (0%Z, t)))
    as [parts|]; simpl; [|lra].
  rewrite <- boundary_entropy. apply gain_le_entropy. discriminate.
Qed.

Lemma boundary_best :
  findBestSplit boundaryData boundaryLabels = Done (mkBest 0 2 1).
Proof.
  destruct fit_pre_boundary as (Hne & Hlen & _).
  rewrite (findBestSplit_scan 1 boundaryData boundaryLabels Hne
             ltac:(repeat constructor) Hlen).
  rewrite boundary_candidates. f_equal.
  destruct boundary_gain_1 as [g1 [Hg1 Hlt]].
  apply gainAt_Done in Hg1.
  pose proof (gainAt_Done _ _ _ _ boundary_gain_2) as Hg2.
  pose proof (boundary_gain_le 3) as Hg3.
  pose proof (boundary_gain_le 4) as Hg4.
  simpl fold_left.
  assert (H1 : (bestInfoGain (consider (gainAt boundaryData boundaryLabels)
                                       initBest (0%Z, 1%R)) < 1)%R).
  { unfold consider. rewrite Hg1.
    destruct (Rgt_dec g1 (bestInfoGain initBest)); simpl; lra. }
  rewrite (consider_better _ _ (0%Z, 2%R)) by (rewrite Hg2; exact H1).
  rewrite Hg2. simpl fst. simpl snd.
  rewrite (consider_keeps _ _ (0%Z, 3%R)) by exact Hg3.
  rewrite (consider_keeps _ _ (0%Z, 4%R)) by exact Hg4.
  reflexivity.
Qed.

Lemma boundary_splitData :
  splitData boundaryData boundaryLabels 0 2 =
  Done (mkPartition [[1%R]; [2%R]] [0%Z; 0%Z] [[3%R]; [4%R]] [1%Z; 1%Z]).
Proof. simpl. decide_reals. reflexivity. Qed.

Lemma boundary_buildTree (fuel : nat) :
  buildTree (S (S fuel)) boundaryData boundaryLabels = Done boundaryTree.
Proof.
  rewrite buildTree_unfold.
  change (isPure boundaryLabels) with false. cbv iota.
  rewrite boundary_best. cbn [bind bestFeature bestThreshold].
  change (0 =? -1)%Z with false. cbv iota.
  rewrite boundary_splitData.
  cbn [bind leftData leftLabels rightData rightLabels].
  rewrite !buildTree_pure by reflexivity.
  reflexivity.
Qed.

Lemma boundary_predict_low :
  predictNode boundaryTree [1.5%R] = Done 0%Z.
Proof. simpl. decide_reals. reflexivity. Qed.

Lemma boundary_predict_high :
  predictNode boundaryTree [3.5%R] = Done 1%Z.
Proof. simpl. decide_reals. reflexivity. Qed.

(** ** Running the embedding on small inputs *)

Example countLabels_is_sorted :
  countLabels [3; 1; 3; 2; 1; 3]%Z = [(1, 2); (2, 1); (3, 3)]%Z.
Proof. reflexivity. Qed.

Example isPure_examples :
  isPure [] = true /\ isPure [4; 4; 4]%Z = true /\ isPure [4; 4; 5]%Z = false.
Proof. repeat split. Qed.

Example majorityLabel_smallest_of_ties :
  majorityLabel [1; 0]%Z = Done 0%Z /\
  majorityLabel [2; 1; 2; 1; 0]%Z = Done 1%Z /\
  majorityLabel [7; 3; 7]%Z = Done 7%Z.
Proof. repeat split. Qed.

Example majorityLabel_of_nothing : majorityLabel [] = Fault OutOfRange.
Proof. reflexivity. Qed.

(** [buildTree] on an empty dataset passes the purity test and then reads
    [labels[0]]. *)
Example buildTree_of_nothing (fuel : nat) :
  buildTree (S fuel) [] [] = Fault OutOfRange.
Proof. reflexivity. Qed.

Example predict_untrained (sample : list R) :
  predict (mkTree None) sample = Fault NullDeref.
Proof. reflexivity. Qed.

Lemma tie_best : findBestSplit tieData tieLabels = Done initBest.
Proof.
  destruct fit_pre_tie as (Hne & Hlen & _).
  rewrite (findBestSplit_scan 1 tieData tieLabels Hne
             ltac:(repeat constructor) Hlen).
  rewrite tie_candidates. f_equal.
  pose proof (gainAt_Done _ _ _ _ tie_gain) as Hg.
  simpl fold_left.
  rewrite (consider_keeps _ initBest (0%Z, 5%R)) by (rewrite Hg; simpl; lra).
  rewrite (consider_keeps _ initBest (0%Z, 5%R)) by (rewrite Hg; simpl; lra).
  reflexivity.
Qed.

(** The tie scenario: no candidate gains anything and the root is the
    leaf of the smaller label. *)
Lemma tie_buildTree (fuel : nat) :
  buildTree (S fuel) tieData tieLabels = Done (newNode true 0 (-1) 0).
Proof.
  rewrite buildTree_unfold.
  change (isPure tieLabels) with false. cbv iota.
  rewrite tie_best. reflexivity.
Qed.

(** ** Sign of the information gain *)

Lemma ln_below_line (u : R) : (0 < u)%R -> (ln u <= u - 1)%R.
Proof.
  intros Hu. pose proof (exp_ineq1_le (ln u)) as H.
  rewrite exp_ln in H by assumption. lra.
Qed.

Lemma ln_strictly_below_line (u : R) :
  (0 < u)%R -> u <> 1%R -> (ln u < u - 1)%R.
Proof.
  intros Hu Hne. pose proof (exp_ineq1 (ln u) (ln_neq_0 u Hne Hu)) as H.
  rewrite exp_ln in H by assumption. lra.
Qed.

Lemma xlnx_0 (n : R) : xlnx 0 n = 0%R.
Proof. unfold xlnx. lra. Qed.

Lemma Rdiv_pos (a b : R) : (0 < a)%R -> (0 < b)%R -> (0 < a / b)%R.
Proof. intros Ha Hb. apply Rmult_lt_0_compat; [|apply Rinv_0_lt_compat]; assumption. Qed.

(** One side of a split against the whole: [x] of the [X] labels of the
    side, [y] of the [Y] labels of the whole, have the class. *)
Lemma side_term (x X y Y : R) :
  (0 <= x)%R -> (0 <= X)%R -> (0 < y)%R -> (0 < Y)%R -> ((0 < x)%R -> (0 < X)%R) ->
  (x - y * X / Y <= x * (ln (x / X) - ln (y / Y)))%R /\
  ((0 < x)%R -> (x * Y <> y * X)%R ->
   (x - y * X / Y < x * (ln (x / X) - ln (y / Y)))%R).
Proof.
  intros Hx HX Hy HY HxX.
  assert (HyY : (0 < y / Y)%R) by now apply Rdiv_pos.
  destruct Hx as [Hx| <-].
  - specialize (HxX Hx).
    assert (HxX' : (0 < x / X)%R) by now apply Rdiv_pos.
    set (u := ((y / Y) / (x / X))%R).
    assert (Hu : (0 < u)%R) by now apply Rdiv_pos.
    assert (Hln : ln u = (ln (y / Y) - ln (x / X))%R).
    { unfold u. unfold Rdiv at 1. rewrite ln_mult, ln_Rinv; try assumption; [lra|].
      now apply Rinv_0_lt_compat. }
    assert (Hxu : (x * u = y * X / Y)%R).
    { unfold u. field. repeat split; lra. }
    split.
    + pose proof (ln_below_line u Hu) as Hb.
      assert (x * ln u <= x * (u - 1))%R by (apply Rmult_le_compat_l; lra).
      rewrite Hln in *. lra.
    + intros _ Hne.
      assert (Hu1 : u <> 1%R).
      { intros E. apply Hne. rewrite E in Hxu.
        apply (Rmult_eq_reg_r (/ Y)); [|apply Rinv_neq_0_compat; lra].
        rewrite Rmult_assoc, Rinv_r by lra. unfold Rdiv in Hxu. lra. }
      pose proof (ln_strictly_below_line u Hu Hu1) as Hb.
      assert (x * ln u < x * (u - 1))%R by (apply Rmult_lt_compat_l; lra).
      rewrite Hln in *. lra.
  - split; [|intros; lra].
    assert (0 <= y * X / Y)%R.
    { unfold Rdiv. apply Rmult_le_pos; [apply Rmult_le_pos; lra|].
      left. now apply Rinv_0_lt_compat. }
    lra.
Qed.

Lemma classTerm_nonneg (lc l rc r : R) :
  (0 <= lc <= l)%R -> (0 <= rc <= r)%R ->
  (0 <= classTerm lc l rc r)%R /\
  ((lc * r <> rc * l)%R -> (0 < classTerm lc l rc r)%R).
Proof.
  intros [Hlc Hl] [Hrc Hr]. unfold classTerm, xlnx.
  destruct (Req_dec (lc + rc) 0) as [E|Hn].
  - assert (lc = 0%R) by lra. assert (rc = 0%R) by lra. subst.
    split; [lra|]. intros H. exfalso. apply H. lra.
  - assert (Hy : (0 < lc + rc)%R) by lra.
    assert (HY : (0 < l + r)%R) by lra.
    destruct (side_term lc l (lc + rc) (l + r)) as [HL HL']; try lra.
    destruct (side_term rc r (lc + rc) (l + r)) as [HR HR']; try lra.
    assert (Hsum : ((lc - (lc + rc) * l / (l + r))
                    + (rc - (lc + rc) * r / (l + r)) = 0)%R)
      by (field; lra).
    split; [lra|]. intros Hne.
    destruct (Rle_lt_or_eq_dec 0 lc Hlc) as [Hpos|<-].
    + assert (lc * (l + r) <> (lc + rc) * l)%R by (intros E; apply Hne; lra).
      specialize (HL' Hpos H). lra.
    + assert (Hpos : (0 < rc)%R) by lra.
      assert (rc * (l + r) <> (0 + rc) * r)%R by (intros E; apply Hne; lra).
      specialize (HR' Hpos H). lra.
Qed.

Lemma Rsum_map_ext (A : Type) (f g : A -> R) (xs : list A) :
  (forall x, In x xs -> f x = g x) -> Rsum (map f xs) = Rsum (map g xs).
Proof.
  induction xs as [|x xs IH]; intros H; simpl; [reflexivity|].
  rewrite (H x (or_introl eq_refl)), IH; [reflexivity|].
  intros y Hy. apply H. now right.
Qed.

Lemma Rsum_map_scale (A : Type) (k : R) (f : A -> R) (xs : list A) :
  Rsum (map (fun x => (k * f x)%R) xs) = (k * Rsum (map f xs))%R.
Proof. induction xs as [|x xs IH]; simpl; [lra | rewrite IH; lra]. Qed.

Lemma Rsum_map_combine (A : Type) (f g h : A -> R) (xs : list A) :
  Rsum (map (fun x => (f x + g x - h x)%R) xs) =
  (Rsum (map f xs) + Rsum (map g xs) - Rsum (map h xs))%R.
Proof. induction xs as [|x xs IH]; simpl; [lra | rewrite IH; lra]. Qed.

Lemma Rsum_map_nonneg (A : Type) (f : A -> R) (xs : list A) :
  (forall x, In x xs -> (0 <= f x)%R) -> (0 <= Rsum (map f xs))%R.
Proof.
  induction xs as [|x xs IH]; intros H; simpl; [lra|].
  pose proof (H x (or_introl eq_refl)).
  assert (0 <= Rsum (map f xs))%R by (apply IH; intros y Hy; apply H; now right).
  lra.
Qed.

Lemma Rsum_map_pos (A : Type) (f : A -> R) (xs : list A) (x : A) :
  (forall y, In y xs -> (0 <= f y)%R) -> In x xs -> (0 < f x)%R ->
  (0 < Rsum (map f xs))%R.
Proof.
  induction xs as [|y xs IH]; intros H Hin Hx; simpl; [destruct Hin|].
  pose proof (H y (or_introl eq_refl)).
  assert (Hrest : (0 <= Rsum (map f xs))%R).
  { apply Rsum_map_nonneg. intros z Hz. apply H. now right. }
  destruct Hin as [->|Hin]; [lra|].
  assert (0 < Rsum (map f xs))%R by (apply IH; auto; intros z Hz; apply H; now right).
  lra.
Qed.

Lemma Rsum_map_zero (A : Type) (f : A -> R) (xs : list A) :
  (forall x, In x xs -> f x = 0%R) -> Rsum (map f xs) = 0%R.
Proof.
  intros H. apply Rsum_zero. rewrite Forall_map, Forall_forall. exact H.
Qed.

Lemma Rsum_app (xs ys : list R) : Rsum (xs ++ ys) = (Rsum xs + Rsum ys)%R.
Proof. induction xs as [|x xs IH]; simpl; [lra | rewrite IH; lra]. Qed.

(** A sum over the classes present extends to any duplicate-free list of
    classes that contains them, when the other classes contribute [0]. *)
Lemma Rsum_extend (f : Z -> R) (xs ys : list Z) :
  NoDup xs -> NoDup ys -> incl xs ys ->
  (forall y, In y ys -> ~ In y xs -> f y = 0%R) ->
  Rsum (map f xs) = Rsum (map f ys).
Proof.
  intros Hxs Hys Hincl Hzero.
  set (others := filter (fun y => if in_dec Z.eq_dec y xs then false else true) ys).
  assert (Hperm : Permutation ys (xs ++ others)).
  { apply NoDup_Permutation; [assumption| |].
    - apply NoDup_app; [assumption | now apply NoDup_filter |].
      intros x Hx. unfold others. rewrite filter_In.
      destruct (in_dec Z.eq_dec x xs); [intros [_ ?]; discriminate | contradiction].
    - intros y. rewrite in_app_iff. unfold others. rewrite filter_In.
      destruct (in_dec Z.eq_dec y xs) as [Hin|Hnin].
      + split; [intros _; now left | intros _; now apply Hincl].
      + split; [intros Hy; right; now split
               |intros [?|[? _]]; [contradiction | assumption]]. }
  rewrite (Rsum_Permutation _ _ (Permutation_map f Hperm)).
  rewrite map_app, Rsum_app.
  rewrite (Rsum_map_zero _ f others); [lra|].
  intros y Hy. unfold others in Hy. apply filter_In in Hy.
  destruct Hy as [Hy Hb].
  destruct (in_dec Z.eq_dec y xs); [discriminate | now apply Hzero].
Qed.

Lemma occurrences_absent (k : Z) (labels : list Z) :
  ~ In k labels -> occurrences k labels = 0%Z.
Proof.
  intros H. pose proof (occurrences_nonneg k labels).
  destruct (Z.eq_dec (occurrences k labels) 0) as [|Hne]; [assumption|].
  exfalso. apply H, occurrences_pos. lia.
Qed.

(** The entropy of a list as a sum over any duplicate-free list of
    classes that contains its labels. *)
Lemma calculateEntropy_classes (labels classes : list Z) :
  NoDup classes -> incl labels classes ->
  (INR (length labels) * ln 2 * calculateEntropy labels)%R =
  (- Rsum (map (fun c => xlnx (IZR (occurrences c labels)) (INR (length labels)))
               classes))%R.
Proof.
  intros Hnd Hincl.
  rewrite <- (Rsum_extend
                (fun c => xlnx (IZR (occurrences c labels)) (INR (length labels)))
                (nodup Z.eq_dec labels) classes).
  - rewrite calculateEntropy_sum. unfold entropy_spec.
    destruct labels as [|l0 rest]; [simpl; lra|].
    set (labels := l0 :: rest) in *.
    pose proof (length_pos_INR _ labels ltac:(discriminate)) as Hn.
    pose proof ln2_pos as H2.
    rewrite Ropp_mult_distr_r_reverse. f_equal.
    rewrite <- Rsum_map_scale. apply Rsum_map_ext.
    intros c _. unfold fraction, log2, xlnx. field. lra.
  - apply NoDup_nodup.
  - assumption.
  - intros c Hc. apply Hincl. now apply nodup_In in Hc.
  - intros c _ Hc. rewrite nodup_In in Hc.
    rewrite (occurrences_absent c labels Hc). apply xlnx_0.
Qed.

Lemma splits_length (labels leftLabels rightLabels : list Z) :
  splits labels leftLabels rightLabels ->
  length labels = (length leftLabels + length rightLabels)%nat.
Proof.
  revert leftLabels rightLabels.
  induction labels as [|l labels IH]; intros L R H.
  - assert (HL : L = []).
    { destruct L as [|x L]; [reflexivity|]. specialize (H x).
      rewrite occurrences_cons, Z.eqb_refl in H.
      pose proof (occurrences_nonneg x L). pose proof (occurrences_nonneg x R).
      unfold occurrences in H at 1. simpl in H. lia. }
    assert (HR : R = []).
    { destruct R as [|x R]; [reflexivity|]. specialize (H x).
      rewrite occurrences_cons, Z.eqb_refl in H.
      pose proof (occurrences_nonneg x L). pose proof (occurrences_nonneg x R).
      unfold occurrences in H at 1. simpl in H. lia. }
    now subst.
  - assert (Hin : In l L \/ In l R).
    { specialize (H l). rewrite occurrences_cons, Z.eqb_refl in H.
      pose proof (occurrences_nonneg l labels).
      destruct (in_dec Z.eq_dec l L) as [|HnL]; [now left|].
      destruct (in_dec Z.eq_dec l R) as [|HnR]; [now right|].
      rewrite (occurrences_absent l L HnL), (occurrences_absent l R HnR) in H. lia. }
    destruct Hin as [Hin|Hin]; apply in_split in Hin;
      destruct Hin as (xs & ys & ->).
    + assert (Hs : splits labels (xs ++ ys) R).
      { intros k. specialize (H k). unfold occurrences in *.
        rewrite count_occ_app in *. simpl in *.
        destruct (Z.eq_dec l k); lia. }
      specialize (IH _ _ Hs). rewrite length_app in *. simpl. lia.
    + assert (Hs : splits labels L (xs ++ ys)).
      { intros k. specialize (H k). unfold occurrences in *.
        rewrite count_occ_app in *. simpl in *.
        destruct (Z.eq_dec l k); lia. }
      specialize (IH _ _ Hs). rewrite length_app in *. simpl. lia.
Qed.

Lemma splitLabels_splits (f : Z) (t : R) (data : list (list R)) :
  forall labels parts,
  splitLabels data labels f t = Done parts ->
  length data = length labels ->
  splits labels (fst parts) (snd parts).
Proof.
  induction data as [|row data IH]; intros labels parts H Hlen.
  - destruct labels; [|discriminate]. simpl in H. injection H as <-.
    intros k. reflexivity.
  - simpl in H. apply bind_Done in H. destruct H as [x [Hx H]].
    destruct labels as [|l labels]; [discriminate|].
    apply bind_Done in H. destruct H as [rest [Hrest H]].
    injection H as <-. simpl in Hlen.
    pose proof (IH labels rest Hrest ltac:(lia)) as Hs.
    intros k. specialize (Hs k).
    destruct (Rle_dec x t); simpl; rewrite !occurrences_cons; lia.
Qed.

Lemma cross_product_IZR (a b : Z) (m k : nat) :
  (a * Z.of_nat m = b * Z.of_nat k)%Z <-> (IZR a * INR m = IZR b * INR k)%R.
Proof.
  rewrite !INR_IZR_INZ, <- !mult_IZR. split.
  - now intros ->.
  - apply eq_IZR.
Qed.

Lemma splits_bounds (labels leftLabels rightLabels : list Z) (c : Z) :
  splits labels leftLabels rightLabels ->
  (0 <= IZR (occurrences c leftLabels) <= INR (length leftLabels))%R /\
  (0 <= IZR (occurrences c rightLabels) <= INR (length rightLabels))%R.
Proof.
  intros _. rewrite !INR_IZR_INZ.
  repeat split; apply IZR_le;
    auto using occurrences_nonneg, occurrences_le_length.
Qed.

(** [n * ln 2 * gain] is the sum of the class terms. *)
Lemma gain_class_sum (labels leftLabels rightLabels : list Z) :
  labels <> [] -> splits labels leftLabels rightLabels ->
  (INR (length labels) * ln 2
   * calculateInformationGain labels leftLabels rightLabels)%R =
  Rsum (map (fun c => classTerm (IZR (occurrences c leftLabels))
                                (INR (length leftLabels))
                                (IZR (occurrences c rightLabels))
                                (INR (length rightLabels)))
            (nodup Z.eq_dec labels)).
Proof.
  intros Hne Hs.
  pose proof (length_pos_INR _ labels Hne) as Hn.
  pose proof (NoDup_nodup Z.eq_dec labels) as Hnd.
  assert (HP : incl labels (nodup Z.eq_dec labels))
    by (intros x Hx; now apply nodup_In).
  assert (Hside : forall side other,
             (forall k, occurrences k labels
                        = (occurrences k side + occurrences k other)%Z) ->
             incl side (nodup Z.eq_dec labels)).
  { intros side other H x Hx. apply nodup_In, occurrences_pos.
    apply occurrences_pos in Hx. rewrite H.
    pose proof (occurrences_nonneg x other). lia. }
  assert (HL : incl leftLabels (nodup Z.eq_dec labels))
    by (apply (Hside leftLabels rightLabels); exact Hs).
  assert (HR : incl rightLabels (nodup Z.eq_dec labels)).
  { apply (Hside rightLabels leftLabels). intros k. rewrite (Hs k). lia. }
  pose proof (calculateEntropy_classes labels _ Hnd HP) as EP.
  pose proof (calculateEntropy_classes leftLabels _ Hnd HL) as EL.
  pose proof (calculateEntropy_classes rightLabels _ Hnd HR) as ER.
  unfold classTerm. rewrite Rsum_map_combine.
  rewrite (Rsum_map_ext _
             (fun c => xlnx (IZR (occurrences c leftLabels)
                             + IZR (occurrences c rightLabels))
                            (INR (length leftLabels) + INR (length rightLabels)))
             (fun c => xlnx (IZR (occurrences c labels)) (INR (length labels)))).
  - unfold calculateInformationGain. cbv zeta.
    transitivity
      (INR (length labels) * ln 2 * calculateEntropy labels
       - INR (length leftLabels) * ln 2 * calculateEntropy leftLabels
       - INR (length rightLabels) * ln 2 * calculateEntropy rightLabels)%R;
      [field; lra | lra].
  - intros c _. rewrite (Hs c), plus_IZR, (splits_length _ _ _ Hs), plus_INR.
    reflexivity.
Qed.

(** The information gain of a split is positive as soon as some class has
    different proportions on the two sides. *)
Lemma gain_positive (labels leftLabels rightLabels : list Z) :
  labels <> [] -> splits labels leftLabels rightLabels ->
  (exists c, (occurrences c leftLabels * Z.of_nat (length rightLabels)
              <> occurrences c rightLabels * Z.of_nat (length leftLabels))%Z) ->
  (0 < calculateInformationGain labels leftLabels rightLabels)%R.
Proof.
  intros Hne Hs [c Hc].
  pose proof (length_pos_INR _ labels Hne) as Hn.
  pose proof ln2_pos as H2.
  assert (Hk : (0 < INR (length labels) * ln 2)%R)
    by now apply Rmult_lt_0_compat.
  pose proof (gain_class_sum labels leftLabels rightLabels Hne Hs) as Hsum.
  set (term := fun c => classTerm (IZR (occurrences c leftLabels))
                                  (INR (length leftLabels))
                                  (IZR (occurrences c rightLabels))
                                  (INR (length rightLabels))) in *.
  assert (Hterm : forall c, (0 <= term c)%R).
  { intros c'. destruct (splits_bounds _ _ _ c' Hs) as [Hl Hr].
    now apply classTerm_nonneg. }
  assert (Hin : In c labels).
  { destruct (in_dec Z.eq_dec c labels) as [|Hnin]; [assumption|].
    exfalso. apply Hc.
    pose proof (Hs c) as E. rewrite (occurrences_absent c labels Hnin) in E.
    pose proof (occurrences_nonneg c leftLabels).
    pose proof (occurrences_nonneg c rightLabels).
    replace (occurrences c leftLabels) with 0%Z by lia.
    replace (occurrences c rightLabels) with 0%Z by lia. reflexivity. }
  assert (Hpos : (0 < Rsum (map term (nodup Z.eq_dec labels)))%R).
  { apply (Rsum_map_pos _ term _ c); auto; [now apply nodup_In|].
    destruct (splits_bounds _ _ _ c Hs) as [Hl Hr].
    apply classTerm_nonneg; try assumption.
    intros E. apply Hc. now apply cross_product_IZR. }
  rewrite <- Hsum in Hpos.
  apply (Rmult_lt_reg_l (INR (length labels) * ln 2)); lra.
Qed.

(** ** Splits when a feature determines the label *)

Lemma goesLeft_value (f : Z) (t : R) (row : list R) (x : R) :
  vec_at row f = Done x ->
  goesLeft f t row = if Rle_dec x t then true else false.
Proof. unfold goesLeft. now intros ->. Qed.

Lemma splitData_filter (f : Z) (t : R) (data : list (list R)) :
  forall labels p,
  splitData data labels f t = Done p ->
  combine (leftData p) (leftLabels p) =
    filter (fun rl => goesLeft f t (fst rl)) (combine data labels) /\
  combine (rightData p) (rightLabels p) =
    filter (fun rl => negb (goesLeft f t (fst rl))) (combine data labels) /\
  leftData p = filter (goesLeft f t) data /\
  rightData p = filter (fun row => negb (goesLeft f t row)) data.
Proof.
  induction data as [|row data IH]; intros labels p H.
  - simpl in H. injection H as <-. simpl. auto.
  - simpl in H. apply bind_Done in H. destruct H as [x [Hx H]].
    destruct labels as [|l labels]; [discriminate|].
    apply bind_Done in H. destruct H as [rest [Hrest H]].
    injection H as <-.
    destruct (IH _ _ Hrest) as (H1 & H2 & H3 & H4).
    simpl. rewrite (goesLeft_value f t row x Hx).
    destruct (Rle_dec x t); simpl; rewrite ?H1, ?H2, ?H3, ?H4; auto.
Qed.

Lemma least_value (A : Type) (g : A -> R) (xs : list A) :
  xs <> [] -> exists x, In x xs /\ forall y, In y xs -> (g x <= g y)%R.
Proof.
  induction xs as [|a xs IH]; [congruence|]. intros _.
  destruct xs as [|b xs].
  - exists a. split; [now left|]. intros y [<-|[]]. lra.
  - destruct (IH ltac:(discriminate)) as (m & Hm & Hmin).
    destruct (Rle_dec (g a) (g m)) as [Hle|Hgt].
    + exists a. split; [now left|].
      intros y [<-|Hy]; [lra|]. specialize (Hmin y Hy). lra.
    + exists m. split; [now right|].
      intros y [<-|Hy]; [lra | now apply Hmin].
Qed.

Lemma in_combine_label (A : Type) (xs : list A) (labels : list Z) (lab : Z) :
  length xs = length labels -> In lab labels ->
  exists x, In (x, lab) (combine xs labels).
Proof.
  revert labels. induction xs as [|x xs IH]; intros labels Hlen Hin;
    destruct labels as [|l labels]; try discriminate; [destruct Hin|].
  simpl in Hlen. destruct Hin as [->|Hin].
  - exists x. now left.
  - destruct (IH labels ltac:(lia) Hin) as [x' Hx']. exists x'. now right.
Qed.

Lemma vec_at_nth (row : list R) (f : Z) :
  (0 <= f < Z.of_nat (length row))%Z ->
  vec_at row f = Done (nth (Z.to_nat f) row 0%R).
Proof.
  intros Hf. destruct (vec_at_in_range _ row f Hf) as [x Hx].
  rewrite Hx. f_equal. symmetry. apply nth_error_nth.
  now apply vec_at_Done in Hx.
Qed.

(** When some feature determines the label, a partition with two
    different labels always has a split of positive gain: the one at the
    least value of that feature. *)
Lemma impure_partition_splits (n : nat) (f : Z) (data : list (list R))
      (labels : list Z) (best : Best) :
  shaped n data labels ->
  (0 <= f < Z.of_nat n)%Z ->
  determinesLabel f data labels ->
  isPure labels = false ->
  findBestSplit data labels = Done best ->
  bestFeature best <> (-1)%Z.
Proof.
  intros Hs Hf Hdet Hpure Hfind.
  pose proof (shaped_labels _ _ _ Hs) as Hlne.
  destruct Hs as (Hne & Hrect & Hlen).
  assert (Hvalue : forall row lab, In (row, lab) (combine data labels) ->
                   vec_at row f = Done (nth (Z.to_nat f) row 0%R)).
  { intros row lab Hin. apply vec_at_nth.
    unfold rectangular in Hrect. rewrite Forall_forall in Hrect.
    rewrite (Hrect row); [assumption | eapply in_combine_l; eauto]. }
  set (value := fun rl : list R * Z => nth (Z.to_nat f) (fst rl) 0%R).
  assert (Hpairs : combine data labels <> []).
  { destruct data; [congruence|]. destruct labels; [congruence|]. discriminate. }
  destruct (least_value _ value _ Hpairs) as ([r0 a] & Hr0 & Hmin).
  set (v0 := value (r0, a)) in *.
  pose proof (Hvalue r0 a Hr0) as Hv0. fold (value (r0, a)) in Hv0. fold v0 in Hv0.
  assert (Hc : In (f, v0) (candidates data)).
  { apply (candidates_exact n data f v0 Hrect). exists r0.
    split; [eapply in_combine_l; eauto | assumption]. }
  pose proof (candidateGain_succeeds n data labels (f, v0) Hrect Hlen Hf) as Hg.
  pose proof Hg as Hg'. unfold candidateGain in Hg'. simpl in Hg'.
  apply bind_Done in Hg'. destruct Hg' as [parts [Hparts Hval]].
  injection Hval as Hval.
  destruct (splitData_succeeds _ _ _ _ _ Hparts) as [p Hp].
  pose proof (splitData_labels _ _ _ _ _ Hp) as Hpl.
  rewrite Hparts in Hpl. injection Hpl as ->.
  destruct (splitData_filter _ _ _ _ _ Hp) as (HL & HR & _).
  destruct (splitData_shape _ _ _ _ _ Hp) as (HlenL & HlenR & _).
  simpl in Hval.
  (* a label other than the one of the least row *)
  assert (Hother : exists rb b, In (rb, b) (combine data labels) /\ b <> a).
  { destruct (isPure_false labels Hpure) as (a' & b' & Ha' & Hb' & Hab).
    destruct (Z.eq_dec a' a) as [->|Hne'].
    - destruct (in_combine_label _ data labels b' Hlen Hb') as [rb Hrb].
      exists rb, b'. split; [assumption | congruence].
    - destruct (in_combine_label _ data labels a' Hlen Ha') as [rb Hrb].
      exists rb, a'. split; assumption. }
  destruct Hother as (rb & b & Hrb & Hba).
  (* rows at the least value carry the label [a] *)
  assert (Hleft : forall r lab, In (r, lab) (combine (leftData p) (leftLabels p)) ->
                                lab = a).
  { intros r lab Hin. rewrite HL in Hin. apply filter_In in Hin.
    destruct Hin as [Hin Htest]. simpl in Htest.
    pose proof (Hvalue r lab Hin) as Hv.
    rewrite (goesLeft_value f v0 r _ Hv) in Htest.
    destruct (Rle_dec (nth (Z.to_nat f) r 0%R) v0) as [Hle|]; [|discriminate].
    pose proof (Hmin (r, lab) Hin) as Hge. unfold value in Hge. simpl in Hge.
    assert (E : nth (Z.to_nat f) r 0%R = v0) by lra.
    rewrite E in Hv. exact (Hdet r lab r0 a v0 Hin Hr0 Hv Hv0). }
  assert (HinL : In (r0, a) (combine (leftData p) (leftLabels p))).
  { rewrite HL. apply filter_In. split; [assumption|]. simpl.
    rewrite (goesLeft_value f v0 r0 v0 Hv0).
    destruct (Rle_dec v0 v0); [reflexivity | lra]. }
  assert (HinR : In (rb, b) (combine (rightData p) (rightLabels p))).
  { rewrite HR. apply filter_In. split; [assumption|]. simpl.
    pose proof (Hvalue rb b Hrb) as Hv.
    rewrite (goesLeft_value f v0 rb _ Hv).
    destruct (Rle_dec (nth (Z.to_nat f) rb 0%R) v0) as [Hle|]; [|reflexivity].
    exfalso. apply Hba.
    pose proof (Hmin (rb, b) Hrb) as Hge. unfold value in Hge. simpl in Hge.
    assert (E : nth (Z.to_nat f) rb 0%R = v0) by lra.
    rewrite E in Hv. exact (Hdet rb b r0 a v0 Hrb Hr0 Hv Hv0). }
  assert (HbL : occurrences b (leftLabels p) = 0%Z).
  { apply occurrences_absent. intros Hin.
    destruct (in_combine_label _ (leftData p) (leftLabels p) b HlenL Hin) as [r Hr].
    apply Hba. exact (Hleft r b Hr). }
  assert (HbR : (0 < occurrences b (rightLabels p))%Z).
  { apply occurrences_pos. eapply in_combine_r; eauto. }
  assert (HlL : (0 < Z.of_nat (length (leftLabels p)))%Z).
  { apply in_combine_r in HinL. destruct (leftLabels p); [destruct HinL|].
    simpl length. lia. }
  assert (Hgain : (0 < gainAt data labels (f, v0))%R).
  { rewrite <- Hval.
    apply (gain_positive labels (leftLabels p) (rightLabels p) Hlne
             (splitLabels_splits _ _ _ _ _ Hparts Hlen)).
    exists b. rewrite HbL. simpl. nia. }
  destruct (findBestSplit_outcome n data labels Hne Hrect Hlen)
    as [best' [Hfind' Hcases]].
  rewrite Hfind in Hfind'. injection Hfind' as <-.
  destruct Hcases as [[-> Hall]|(k & c & Hk & -> & _)].
  - specialize (Hall _ Hc). lra.
  - simpl.
    pose proof (candidates_features n data c Hrect (nth_error_In _ _ Hk)). lia.
Qed.

Lemma boundary_feature_determines_label :
  determinesLabel 0 boundaryData boundaryLabels.
Proof.
  intros r1 l1 r2 l2 x H1 H2 Hx1 Hx2. simpl in H1, H2.
  repeat match goal with
         | H : _ \/ _ |- _ => destruct H
         | H : False |- _ => destruct H
         | H : (_, _) = (_, _) |- _ => injection H as <- <-
         end;
    try reflexivity;
    exfalso; apply vec_at_Done in Hx1; apply vec_at_Done in Hx2;
    destruct Hx1 as [_ Hx1]; destruct Hx2 as [_ Hx2];
    simpl in Hx1, Hx2; injection Hx1 as Hx1; injection Hx2 as Hx2; lra.
Qed.

(** * The claims *)

(** ** C1: the split search *)

(** C1.  On an input satisfying [fit]'s precondition, the candidates of the
    exhaustive search are exactly the feature values of the current rows,
    taken features outer and samples inner: the value of feature [i] in
    row [j] is candidate number [i * length data + j].  The search
    either leaves the best feature unset, and then every candidate has a
    gain of at most [0], or it selects the candidate at some position [k]
    of the enumeration whose gain is strictly positive, at least the gain
    of every candidate and strictly greater than the gain of every earlier
    candidate: the earliest candidate of maximal gain. *)
Theorem split_search_selects_first_maximum
        (data : list (list R)) (labels : list Z) :
  fit_pre data labels ->
  (forall f t, In (f, t) (candidates data) <->
               exists sample, In sample data /\ vec_at sample f = Done t) /\
  (forall i j sample x,
      nth_error data j = Some sample -> nth_error sample i = Some x ->
      nth_error (candidates data) (i * length data + j) = Some (Z.of_nat i, x)) /\
  exists best,
    findBestSplit data labels = Done best /\
    ((bestFeature best = (-1)%Z /\
      forall c, In c (candidates data) ->
                exists g, candidateGain data labels c = Done g /\ (g <= 0)%R)
     \/
     (exists k f t g,
         nth_error (candidates data) k = Some (f, t) /\
         candidateGain data labels (f, t) = Done g /\
         best = mkBest f t g /\
         f <> (-1)%Z /\
         (0 < g)%R /\
         forall j c, nth_error (candidates data) j = Some c ->
                     exists gj, candidateGain data labels c = Done gj /\
                                (gj <= g)%R /\
                                ((j < k)%nat -> (gj < g)%R))).
Proof.
  intros Hpre. destruct (fit_pre_shaped _ _ Hpre) as [n (Hne & Hrect & Hlen)].
  split; [intros f t; now apply (candidates_exact n)|].
  split; [intros i j sample x; now apply (candidates_position n)|].
  assert (Hgain : forall c, In c (candidates data) ->
                            candidateGain data labels c = Done (gainAt data labels c)).
  { intros c Hc. apply (candidateGain_succeeds n); auto.
    now apply (candidates_features n data). }
  destruct (findBestSplit_outcome n data labels Hne Hrect Hlen)
    as [best [Hfind [[-> Hall]|(k & [f t] & Hk & -> & Hpos & Hmax)]]];
    (eexists; split; [eassumption|]).
  - left. split; [reflexivity|].
    intros c Hc. exists (gainAt data labels c). auto.
  - right. exists k, f, t, (gainAt data labels (f, t)).
    pose proof (nth_error_In _ _ Hk) as Hin.
    pose proof (candidates_features n data _ Hrect Hin) as Hf. simpl in Hf.
    repeat split; auto; try lia.
    intros j c Hj. exists (gainAt data labels c).
    split; [apply Hgain; eapply nth_error_In; eauto|].
    now apply Hmax.
Qed.

Lemma split_search_selects_first_maximum_witness :
  fit_pre boundaryData boundaryLabels /\
  exists best,
    findBestSplit boundaryData boundaryLabels = Done best /\
    ((bestFeature best = (-1)%Z /\
      forall c, In c (candidates boundaryData) ->
                exists g, candidateGain boundaryData boundaryLabels c = Done g /\
                          (g <= 0)%R)
     \/
     (exists k f t g,
         nth_error (candidates boundaryData) k = Some (f, t) /\
         candidateGain boundaryData boundaryLabels (f, t) = Done g /\
         best = mkBest f t g /\
         f <> (-1)%Z /\
         (0 < g)%R /\
         forall j c, nth_error (candidates boundaryData) j = Some c ->
                     exists gj, candidateGain boundaryData boundaryLabels c = Done gj /\
                                (gj <= g)%R /\
                                ((j < k)%nat -> (gj < g)%R))).
Proof.
  split; [exact fit_pre_boundary|].
  exact (proj2 (proj2 (split_search_selects_first_maximum
                         boundaryData boundaryLabels fit_pre_boundary))).
Defined.

(** ** C2: the purity stop *)

(** C2.  For a non-empty label list whose labels all equal the first one,
    [buildTree] returns a single leaf carrying that label, whatever the
    data, and after [fit] every [predict] returns that label. *)
Theorem pure_labels_give_single_leaf
        (self : DecisionTree) (fuel : nat) (data : list (list R))
        (l0 : Z) (rest : list Z) :
  Forall (fun l => l = l0) rest ->
  buildTree (S fuel) data (l0 :: rest) = Done (newNode true l0 (-1) 0) /\
  fit self data (l0 :: rest) = Done (mkTree (Some (newNode true l0 (-1) 0))) /\
  forall sample,
    predict (mkTree (Some (newNode true l0 (-1) 0))) sample = Done l0.
Proof.
  intros Hall. apply isPure_cons in Hall.
  split; [now apply buildTree_pure|]. split.
  - unfold fit. now rewrite (buildTree_pure _ data l0 rest Hall).
  - reflexivity.
Qed.

Lemma pure_labels_give_single_leaf_witness :
  buildTree 1 [[1%R]; [2%R]; [1%R]] [7%Z; 7%Z; 7%Z] = Done (newNode true 7 (-1) 0) /\
  fit (mkTree None) [[1%R]; [2%R]; [1%R]] [7%Z; 7%Z; 7%Z]
  = Done (mkTree (Some (newNode true 7 (-1) 0))) /\
  forall sample,
    predict (mkTree (Some (newNode true 7 (-1) 0))) sample = Done 7%Z.
Proof.
  apply (pure_labels_give_single_leaf (mkTree None) 0
           [[1%R]; [2%R]; [1%R]] 7 [7%Z; 7%Z]).
  repeat constructor.
Defined.

(** ** C3: empty partitions *)

(** C3, refuted.  No input satisfying [fit]'s precondition leads to a
    winning split with an empty right partition: a split that sends every
    row to the left has gain exactly [0] and never wins. *)
Lemma empty_right_partition_unreachable : ~ empty_right_partition_reachable.
Proof.
  intros (data & labels & d & l & best & p &
          Hpre & Hinv & _ & Hfind & Hbest & Hp & Hrd & _).
  destruct (fit_pre_shaped _ _ Hpre) as [n Hs].
  pose proof (invoked_shaped n (data, labels) (d, l) Hs Hinv) as Hs'.
  simpl in Hs'.
  destruct (winning_split_proper n d l best Hs' Hfind Hbest)
    as (p' & Hp' & _ & (Hne & _) & _).
  rewrite Hp in Hp'. injection Hp' as <-. contradiction.
Qed.

(** C3, amended.  On an input satisfying [fit]'s precondition, every
    invocation of [buildTree], at any depth, receives a non-empty dataset
    with one label per row; whenever it selects a split, both partitions
    are non-empty and some current row lies strictly above the threshold,
    so the threshold is never the maximum of its feature.  The read of
    [labels[0]] is always defined and the top-level call returns a tree. *)
Theorem winning_split_partitions_nonempty
        (data : list (list R)) (labels : list Z) :
  fit_pre data labels ->
  (exists node, buildTree (S (length data)) data labels = Done node) /\
  forall d l,
    invoked (data, labels) (d, l) ->
    d <> [] /\ l <> [] /\ length d = length l /\
    forall best,
      findBestSplit d l = Done best ->
      bestFeature best <> (-1)%Z ->
      exists p,
        splitData d l (bestFeature best) (bestThreshold best) = Done p /\
        leftData p <> [] /\ leftLabels p <> [] /\
        rightData p <> [] /\ rightLabels p <> [] /\
        exists row x, In row d /\
                      vec_at row (bestFeature best) = Done x /\
                      (x > bestThreshold best)%R.
Proof.
  intros Hpre. split.
  { destruct (fit_succeeds (mkTree None) data labels Hpre) as [node [H _]]. eauto. }
  destruct (fit_pre_shaped _ _ Hpre) as [n Hs].
  intros d l Hinv.
  pose proof (invoked_shaped n (data, labels) (d, l) Hs Hinv) as Hs'.
  simpl in Hs'. pose proof (shaped_labels _ _ _ Hs') as Hl.
  destruct Hs' as (Hne & Hrect & Hlen).
  repeat split; try assumption.
  intros best Hfind Hbest.
  destruct (winning_split_proper n d l best
              (conj Hne (conj Hrect Hlen)) Hfind Hbest)
    as (p & Hp & HL & HR & _).
  exists p. split; [assumption|].
  pose proof (shaped_labels _ _ _ HL) as HLl.
  pose proof (shaped_labels _ _ _ HR) as HRl.
  destruct HL as (HLd & _). destruct HR as (HRd & _).
  repeat split; try assumption.
  destruct (splitData_shape _ _ _ _ _ Hp) as (_ & _ & _ & Hsub & _ & Hright).
  destruct (Hsub (fun row => In row d)) as [_ Hin];
    [rewrite Forall_forall; auto|].
  destruct (rightData p) as [|row rows]; [congruence|].
  inversion Hright as [|? ? (x & Hx & Hgt) _]; subst.
  inversion Hin; subst.
  exists row, x. auto.
Qed.

Lemma winning_split_partitions_nonempty_witness :
  fit_pre boundaryData boundaryLabels /\
  (exists node, buildTree (S (length boundaryData)) boundaryData boundaryLabels
                = Done node) /\
  forall d l,
    invoked (boundaryData, boundaryLabels) (d, l) ->
    d <> [] /\ l <> [] /\ length d = length l /\
    forall best,
      findBestSplit d l = Done best ->
      bestFeature best <> (-1)%Z ->
      exists p,
        splitData d l (bestFeature best) (bestThreshold best) = Done p /\
        leftData p <> [] /\ leftLabels p <> [] /\
        rightData p <> [] /\ rightLabels p <> [] /\
        exists row x, In row d /\
                      vec_at row (bestFeature best) = Done x /\
                      (x > bestThreshold best)%R.
Proof.
  split; [exact fit_pre_boundary|].
  exact (winning_split_partitions_nonempty boundaryData boundaryLabels
           fit_pre_boundary).
Defined.

(** ** C4: the majority fallback *)

(** C4.  For a label list that is not pure (hence not empty), on an input
    satisfying [fit]'s precondition on which no candidate split has a gain
    strictly greater than [0], the search leaves the best feature unset and
    [buildTree] returns a leaf; its label occurs at least as often as any
    other label and is the smallest label with that number of
    occurrences. *)
Theorem no_gain_gives_majority_leaf
        (fuel : nat) (data : list (list R)) (labels : list Z) :
  fit_pre data labels ->
  isPure labels = false ->
  (forall c g, In c (candidates data) ->
               candidateGain data labels c = Done g -> (g <= 0)%R) ->
  exists best m,
    findBestSplit data labels = Done best /\
    bestFeature best = (-1)%Z /\
    majorityLabel labels = Done m /\
    buildTree (S fuel) data labels = Done (newNode true m (-1) 0) /\
    In m labels /\
    (forall x, (occurrences x labels <= occurrences m labels)%Z) /\
    (forall x, occurrences x labels = occurrences m labels -> (m <= x)%Z).
Proof.
  intros Hpre Hpure Hnone.
  destruct (fit_pre_shaped _ _ Hpre) as [n Hs].
  pose proof (shaped_labels _ _ _ Hs) as Hl.
  destruct Hs as (Hne & Hrect & Hlen).
  destruct (findBestSplit_outcome n data labels Hne Hrect Hlen)
    as [best [Hfind [[-> _]|(k & c & Hk & _ & Hpos & _)]]].
  - destruct (majorityLabel_spec labels Hl) as (m & Hm & Hin & Hmax & Hmin).
    exists initBest, m. repeat split; auto.
    rewrite buildTree_unfold, Hpure, Hfind. simpl. now rewrite Hm.
  - exfalso.
    pose proof (nth_error_In _ _ Hk) as Hin.
    pose proof (candidateGain_succeeds n data labels c Hrect Hlen
                  (candidates_features n data c Hrect Hin)) as Hg.
    specialize (Hnone c _ Hin Hg). lra.
Qed.

Lemma no_gain_gives_majority_leaf_witness :
  exists best m,
    findBestSplit tieData tieLabels = Done best /\
    bestFeature best = (-1)%Z /\
    majorityLabel tieLabels = Done m /\
    buildTree 1 tieData tieLabels = Done (newNode true m (-1) 0) /\
    In m tieLabels /\
    (forall x, (occurrences x tieLabels <= occurrences m tieLabels)%Z) /\
    (forall x, occurrences x tieLabels = occurrences m tieLabels -> (m <= x)%Z).
Proof.
  apply (no_gain_gives_majority_leaf 0 tieData tieLabels).
  - exact fit_pre_tie.
  - reflexivity.
  - intros c g Hc Hg. rewrite tie_candidates in Hc.
    assert (E : c = (0%Z, 5%R)) by (destruct Hc as [<-|[<-|[]]]; reflexivity).
    subst c. rewrite tie_gain in Hg. injection Hg as <-. lra.
Defined.

(** ** C5: entropy and information gain *)

(** C5.  [calculateEntropy] is the entropy of the specification, minus the
    sum over the classes present of [p_c * log2 p_c], and
    [calculateInformationGain] is the parent entropy minus the
    size-weighted child entropies; a single-class list has entropy [0] and
    a perfectly balanced two-class list has entropy [1]. *)
Theorem entropy_and_gain_formulas (labels leftLabels rightLabels : list Z) :
  labels <> [] ->
  calculateEntropy labels = entropy_spec labels /\
  calculateInformationGain labels leftLabels rightLabels =
    gain_spec labels leftLabels rightLabels /\
  (isPure labels = true -> calculateEntropy labels = 0%R) /\
  (forall a b, balanced a b labels -> calculateEntropy labels = 1%R).
Proof.
  intros _. split; [apply calculateEntropy_sum|].
  split; [apply calculateInformationGain_spec|].
  split; [apply calculateEntropy_pure|].
  intros a b. apply calculateEntropy_balanced.
Qed.

Lemma entropy_and_gain_formulas_witness :
  calculateEntropy [3%Z; 3%Z; 3%Z] = 0%R /\
  calculateEntropy [0%Z; 1%Z; 1%Z; 0%Z] = 1%R /\
  calculateInformationGain [0%Z; 1%Z; 1%Z; 0%Z] [0%Z; 0%Z] [1%Z; 1%Z] =
    gain_spec [0%Z; 1%Z; 1%Z; 0%Z] [0%Z; 0%Z] [1%Z; 1%Z].
Proof.
  split; [|split].
  - apply (entropy_and_gain_formulas [3%Z; 3%Z; 3%Z] [] []);
      [discriminate | reflexivity].
  - apply (entropy_and_gain_formulas [0%Z; 1%Z; 1%Z; 0%Z] [] [] ltac:(discriminate)
             : _ /\ _ /\ _ /\ _) with (a := 0%Z) (b := 1%Z).
    unfold balanced. split; [discriminate|]. split; [discriminate|].
    split; [|reflexivity].
    repeat (apply Forall_cons; [auto|]). constructor.
  - apply (entropy_and_gain_formulas [0%Z; 1%Z; 1%Z; 0%Z] [0%Z; 0%Z] [1%Z; 1%Z]).
    discriminate.
Defined.

(** ** C6: the descent of [predict] *)

(** C6.  For every sample and every strict binary tree held as root,
    [predict] follows the descent from the root, left when
    [sample[featureIndex] <= threshold] and right otherwise, and returns
    the label of the leaf the descent reaches, after at most
    depth-of-tree comparisons.  It returns a label whenever the sample
    has every feature the tree tests, and its only possible fault is an
    access to a feature the sample lacks. *)
Theorem predict_follows_descent
        (self : DecisionTree) (node : Node) (sample : list R) :
  root self = Some node ->
  strict node ->
  (forall lbl, predict self sample = Done lbl <->
               exists k, reaches sample node k lbl /\ (k <= depth node)%nat) /\
  (forall n, indexable n node -> length sample = n ->
             exists lbl, predict self sample = Done lbl) /\
  (forall f, predict self sample = Fault f -> f = OutOfRange).
Proof.
  intros Hroot Hstrict. unfold predict, predictRecursive. rewrite Hroot.
  split; [|split].
  - intros lbl. split.
    + apply predictNode_reaches.
    + intros [k [Hk _]]. eapply reaches_predictNode; eauto.
  - intros n. apply predictNode_total.
  - intros f. now apply predictNode_faults.
Qed.

Lemma boundaryTree_strict : strict boundaryTree.
Proof. repeat constructor. Qed.

Lemma predict_follows_descent_witness :
  (forall lbl, predict (mkTree (Some boundaryTree)) [1.5%R] = Done lbl <->
               exists k, reaches [1.5%R] boundaryTree k lbl /\
                         (k <= depth boundaryTree)%nat) /\
  (forall n, indexable n boundaryTree -> length [1.5%R] = n ->
             exists lbl, predict (mkTree (Some boundaryTree)) [1.5%R] = Done lbl) /\
  (forall f, predict (mkTree (Some boundaryTree)) [1.5%R] = Fault f ->
             f = OutOfRange).
Proof.
  apply (predict_follows_descent (mkTree (Some boundaryTree)) boundaryTree [1.5%R]).
  - reflexivity.
  - exact boundaryTree_strict.
Defined.

(** ** C7: the boundary scenario *)

(** C7.  On [data = [[1.0],[2.0],[3.0],[4.0]]], [labels = [0,0,1,1]],
    [fit] stores a root that is an internal node testing feature [0]
    against threshold [2.0]; afterwards [predict([1.5])] is [0] and
    [predict([3.5])] is [1]. *)
Theorem boundary_scenario (self : DecisionTree) :
  exists tree node,
    fit self boundaryData boundaryLabels = Done tree /\
    root tree = Some node /\
    isLeaf node = false /\
    featureIndex node = 0%Z /\
    threshold node = 2%R /\
    predict tree [1.5%R] = Done 0%Z /\
    predict tree [3.5%R] = Done 1%Z.
Proof.
  exists (mkTree (Some boundaryTree)), boundaryTree.
  split.
  - unfold fit. simpl length. now rewrite boundary_buildTree.
  - repeat split.
    + exact boundary_predict_low.
    + exact boundary_predict_high.
Qed.

(** ** C8: existence of a split with positive gain *)

(** C8, refuted.  The tie dataset [[[5.0],[5.0]]] with labels [[0,1]]
    satisfies [fit]'s precondition and has two distinct labels, yet no
    candidate has a gain strictly greater than [0]. *)
Lemma two_labels_without_gainful_candidate :
  fit_pre tieData tieLabels /\
  (exists a b, In a tieLabels /\ In b tieLabels /\ a <> b) /\
  ~ (exists c g, In c (candidates tieData) /\
                 candidateGain tieData tieLabels c = Done g /\ (0 < g)%R).
Proof.
  split; [exact fit_pre_tie|]. split.
  - exists 0%Z, 1%Z. simpl. repeat split; auto. discriminate.
  - intros (c & g & Hc & Hg & Hpos). rewrite tie_candidates in Hc.
    assert (E : c = (0%Z, 5%R)) by (destruct Hc as [<-|[<-|[]]]; reflexivity).
    subst c. rewrite tie_gain in Hg. injection Hg as <-. lra.
Qed.

Lemma distinct_labels_not_pure (labels : list Z) :
  (exists a b, In a labels /\ In b labels /\ a <> b) -> isPure labels = false.
Proof.
  intros (a & b & Ha & Hb & Hab).
  destruct (isPure labels) eqn:Hp; [|reflexivity]. exfalso.
  pose proof (calculateEntropy_pure labels Hp).
  pose proof (calculateEntropy_mixed labels a b Ha Hb Hab). lra.
Qed.

(** C8, amended.  On an input satisfying [fit]'s precondition whose labels
    contain at least two distinct labels, if some feature determines the
    label (rows with different labels have different values of that
    feature), then some candidate has a gain strictly greater than [0]. *)
Theorem determining_feature_gives_gainful_candidate
        (data : list (list R)) (labels : list Z) (f : Z) :
  fit_pre data labels ->
  (exists a b, In a labels /\ In b labels /\ a <> b) ->
  (0 <= f < Z.of_nat (length (hd [] data)))%Z ->
  determinesLabel f data labels ->
  exists c g, In c (candidates data) /\
              candidateGain data labels c = Done g /\ (0 < g)%R.
Proof.
  intros Hpre Hmixed Hf Hdet.
  pose proof (distinct_labels_not_pure labels Hmixed) as Hpure.
  destruct (fit_pre_shaped _ _ Hpre) as [n Hs].
  pose proof Hs as (Hne & Hrect & Hlen).
  assert (Hn : length (hd [] data) = n).
  { destruct data as [|row0 data]; [congruence|]. now inversion Hrect. }
  rewrite Hn in Hf.
  destruct (findBestSplit_outcome n data labels Hne Hrect Hlen)
    as [best [Hfind Hcases]].
  pose proof (impure_partition_splits n f data labels best Hs Hf Hdet Hpure Hfind)
    as Hbest.
  destruct Hcases as [[-> _]|(k & c & Hk & _ & Hpos & _)];
    [now contradiction Hbest|].
  pose proof (nth_error_In _ _ Hk) as Hin.
  exists c, (gainAt data labels c). repeat split; try assumption.
  apply (candidateGain_succeeds n); try assumption.
  now apply (candidates_features n data).
Qed.

Lemma determining_feature_gives_gainful_candidate_witness :
  exists c g, In c (candidates boundaryData) /\
              candidateGain boundaryData boundaryLabels c = Done g /\ (0 < g)%R.
Proof.
  apply (determining_feature_gives_gainful_candidate
           boundaryData boundaryLabels 0).
  - exact fit_pre_boundary.
  - exists 0%Z, 1%Z. simpl. repeat split; auto. discriminate.
  - simpl. lia.
  - exact boundary_feature_determines_label.
Defined.

(** ** C9: determinism of training *)

(** C9.  On an input satisfying [fit]'s precondition, two calls of [fit],
    from whatever earlier states, both return, and the two trees give the
    same [predict] outcome on every sample; on a sample with as many
    features as the rows, that outcome is a label. *)
Theorem fit_is_deterministic
        (self1 self2 : DecisionTree) (data : list (list R)) (labels : list Z) :
  fit_pre data labels ->
  exists tree1 tree2,
    fit self1 data labels = Done tree1 /\
    fit self2 data labels = Done tree2 /\
    forall sample,
      predict tree1 sample = predict tree2 sample /\
      (length sample = length (hd [] data) ->
       exists lbl, predict tree1 sample = Done lbl).
Proof.
  intros Hpre.
  destruct (fit_succeeds self1 data labels Hpre) as [node [Hnode Hfit1]].
  destruct (fit_succeeds self2 data labels Hpre) as [node' [Hnode' Hfit2]].
  rewrite Hnode in Hnode'. injection Hnode' as <-.
  exists (mkTree (Some node)), (mkTree (Some node)).
  repeat split; try assumption.
  intros Hlen.
  destruct (fit_pre_shaped _ _ Hpre) as [n Hs].
  pose proof (buildTree_indexable n _ _ _ _ Hs Hnode) as Hidx.
  apply (predictNode_total n); [assumption|].
  destruct Hs as (Hne & Hrect & _).
  destruct data as [|row0 data]; [congruence|].
  inversion Hrect; subst. exact Hlen.
Qed.

Lemma fit_is_deterministic_witness :
  exists tree1 tree2,
    fit (mkTree None) boundaryData boundaryLabels = Done tree1 /\
    fit (mkTree (Some (newNode true 5 (-1) 0))) boundaryData boundaryLabels
    = Done tree2 /\
    forall sample,
      predict tree1 sample = predict tree2 sample /\
      (length sample = length (hd [] boundaryData) ->
       exists lbl, predict tree1 sample = Done lbl).
Proof.
  apply (fit_is_deterministic (mkTree None) (mkTree (Some (newNode true 5 (-1) 0)))
           boundaryData boundaryLabels).
  exact fit_pre_boundary.
Defined.

(** ** C10: the shape of built trees *)

(** C10.  A node returned by [buildTree] is a leaf with no children or an
    internal node whose two children are non-null and themselves returned
    by [buildTree]; it is a strict binary tree, and [predictRecursive] on
    it never dereferences a null child.  On an input satisfying [fit]'s
    precondition, [fit] returns such a tree as root. *)
Theorem built_trees_are_strict :
  (forall fuel data labels node,
      buildTree fuel data labels = Done node ->
      ((isLeaf node = true /\ left node = None /\ right node = None) \/
       (isLeaf node = false /\
        exists lft rgt, left node = Some lft /\ right node = Some rgt /\
                        built lft /\ built rgt)) /\
      strict node /\
      forall sample, predictRecursive (Some node) sample <> Fault NullDeref) /\
  (forall self data labels,
      fit_pre data labels ->
      exists node,
        fit self data labels = Done (mkTree (Some node)) /\
        strict node /\
        forall sample, predict (mkTree (Some node)) sample <> Fault NullDeref).
Proof.
  split.
  - intros fuel data labels node H.
    pose proof (buildTree_strict _ _ _ _ H) as Hstrict.
    split; [|split; [assumption|]].
    + destruct (buildTree_cases _ _ _ _ H)
        as [[l ->]|(fuel' & best & p & lft & rgt & _ & _ & _ & _ & _ & Hl & Hr & ->)].
      * left. auto.
      * right. split; [reflexivity|]. exists lft, rgt.
        repeat split; [exists fuel', (leftData p), (leftLabels p)
                      |exists fuel', (rightData p), (rightLabels p)]; assumption.
    + intros sample. now apply predictNode_no_null.
  - intros self data labels Hpre.
    destruct (fit_succeeds self data labels Hpre) as [node [Hnode Hfit]].
    pose proof (buildTree_strict _ _ _ _ Hnode) as Hstrict.
    exists node. repeat split; try assumption.
    intros sample. now apply predictNode_no_null.
Qed.

Lemma built_trees_are_strict_witness :
  ((isLeaf boundaryTree = true /\ left boundaryTree = None /\
    right boundaryTree = None) \/
   (isLeaf boundaryTree = false /\
    exists lft rgt, left boundaryTree = Some lft /\ right boundaryTree = Some rgt /\
                    built lft /\ built rgt)) /\
  strict boundaryTree /\
  (forall sample, predictRecursive (Some boundaryTree) sample <> Fault NullDeref) /\
  exists node,
    fit (mkTree None) boundaryData boundaryLabels = Done (mkTree (Some node)) /\
    strict node /\
    forall sample, predict (mkTree (Some node)) sample <> Fault NullDeref.
Proof.
  destruct built_trees_are_strict as [Hbuilt Hfit].
  destruct (Hbuilt 2%nat boundaryData boundaryLabels boundaryTree
              (boundary_buildTree 0)) as (H1 & H2 & H3).
  repeat split; try assumption.
  exact (Hfit (mkTree None) boundaryData boundaryLabels fit_pre_boundary).
Defined.

(** * Further properties of the code *)

(** ** The label-count map of [calculateEntropy] and [majorityLabel] *)

Lemma totalCount_cons (kc : Z * Z) (m : list (Z * Z)) :
  totalCount (kc :: m) = (snd kc + totalCount m)%Z.
Proof. reflexivity. Qed.

Lemma totalCount_incr (k : Z) (m : list (Z * Z)) :
  totalCount (map_incr k m) = (totalCount m + 1)%Z.
Proof.
  induction m as [|[k' c] m IH]; [reflexivity|].
  cbn [map_incr]. destruct (k <? k')%Z; [|destruct (k =? k')%Z];
    rewrite !totalCount_cons; try rewrite IH; cbn [snd]; lia.
Qed.

Lemma countLabels_total_from (labels : list Z) :
  forall m, totalCount (fold_left (fun m l => map_incr l m) labels m)
            = (totalCount m + Z.of_nat (length labels))%Z.
Proof.
  induction labels as [|l labels IH]; intros m; simpl fold_left; simpl length.
  - lia.
  - rewrite IH, totalCount_incr. lia.
Qed.

Lemma countLabels_total (labels : list Z) :
  totalCount (countLabels labels) = Z.of_nat (length labels).
Proof. unfold countLabels. now rewrite countLabels_total_from. Qed.

(** Two maps in ascending order that answer every lookup alike are the
    same list. *)
Lemma ascending_ext (m1 : list (Z * Z)) :
  ascending m1 ->
  forall m2, ascending m2 ->
  (forall k, map_get k m1 = map_get k m2) -> m1 = m2.
Proof.
  induction 1 as [|k1 c1 m1 Hc1 Hab1 Hm1 IH]; intros m2 Hm2 Hget.
  - destruct m2 as [|[k2 c2] m2]; [reflexivity|].
    inversion Hm2; subst.
    specialize (Hget k2). simpl in Hget. rewrite Z.eqb_refl in Hget. lia.
  - destruct m2 as [|[k2 c2] m2].
    + specialize (Hget k1). simpl in Hget. rewrite Z.eqb_refl in Hget. lia.
    + inversion Hm2 as [|? ? ? Hc2 Hab2 Hm2']; subst.
      assert (Hk : k1 = k2).
      { destruct (Z.lt_trichotomy k1 k2) as [Hlt|[E|Hgt]]; [|assumption|]; exfalso.
        - specialize (Hget k1). simpl in Hget. rewrite Z.eqb_refl in Hget.
          destruct (Z.eqb_spec k1 k2); [lia|].
          rewrite map_get_above in Hget; [lia|].
          eapply Forall_impl; [|exact Hab2]. simpl; intros; lia.
        - specialize (Hget k2). simpl in Hget. rewrite Z.eqb_refl in Hget.
          destruct (Z.eqb_spec k2 k1); [lia|].
          rewrite map_get_above in Hget; [lia|].
          eapply Forall_impl; [|exact Hab1]. simpl; intros; lia. }
      subst k2.
      assert (Hc : c1 = c2).
      { specialize (Hget k1). simpl in Hget. now rewrite Z.eqb_refl in Hget. }
      subst c2. f_equal. apply IH; [assumption|].
      intros k. specialize (Hget k). simpl in Hget.
      destruct (Z.eqb_spec k k1) as [E|Hne]; [|assumption].
      rewrite E. now rewrite !map_get_above.
Qed.

Lemma occurrences_Permutation (k : Z) (labels labels' : list Z) :
  Permutation labels labels' -> occurrences k labels = occurrences k labels'.
Proof.
  intros H. unfold occurrences. f_equal.
  now apply (Permutation_count_occ Z.eq_dec).
Qed.

Lemma countLabels_Permutation (labels labels' : list Z) :
  Permutation labels labels' -> countLabels labels = countLabels labels'.
Proof.
  intros H. apply ascending_ext; try apply countLabels_ascending.
  intros k. rewrite !countLabels_get. now apply occurrences_Permutation.
Qed.

Lemma calculateEntropy_Permutation (labels labels' : list Z) :
  Permutation labels labels' -> calculateEntropy labels = calculateEntropy labels'.
Proof.
  intros H. unfold calculateEntropy.
  now rewrite (countLabels_Permutation _ _ H), (Permutation_length H).
Qed.

Lemma majority_scan_start (m : list (Z * Z)) (a b : Z) :
  ascending m -> m <> [] ->
  fold_left moreFrequent m (a, 0%Z) = fold_left moreFrequent m (b, 0%Z).
Proof.
  intros Hm Hne. destruct Hm as [|k c m Hc _ _]; [congruence|].
  simpl. unfold moreFrequent at 2 4. simpl.
  destruct (Z.gtb_spec c 0); [reflexivity | lia].
Qed.

Lemma majorityLabel_Permutation (labels labels' : list Z) :
  Permutation labels labels' -> majorityLabel labels = majorityLabel labels'.
Proof.
  intros H. unfold majorityLabel. rewrite <- (countLabels_Permutation _ _ H).
  destruct labels as [|l0 rest].
  - apply Permutation_nil in H. now subst.
  - destruct labels' as [|l0' rest'];
      [apply Permutation_sym, Permutation_nil in H; discriminate|].
    rewrite !vec_at_head. simpl bind. do 2 f_equal.
    apply (majority_scan_start (countLabels (l0 :: rest)) l0 l0').
    + apply countLabels_ascending.
    + intros E.
      assert (Hin : In (l0, occurrences l0 (l0 :: rest)) (countLabels (l0 :: rest))).
      { apply countLabels_In. split; [now left | reflexivity]. }
      rewrite E in Hin. destruct Hin.
Qed.

(** X1.  The map built by [labelCounts[label]++] over the labels lists, in
    strictly ascending key order, exactly the labels present, each with
    its number of occurrences (never [0]); a label that is absent is not
    stored, and the stored counts add up to the number of labels. *)
Theorem labelCounts_hold_occurrences (labels : list Z) :
  (forall i j a b, (i < j)%nat ->
     nth_error (countLabels labels) i = Some a ->
     nth_error (countLabels labels) j = Some b -> (fst a < fst b)%Z) /\
  (forall k c, In (k, c) (countLabels labels) <->
               In k labels /\ c = occurrences k labels /\ (0 < c)%Z) /\
  (forall k, map_get k (countLabels labels) = occurrences k labels) /\
  totalCount (countLabels labels) = Z.of_nat (length labels).
Proof.
  split; [apply ascending_nth, countLabels_ascending|].
  split; [|split; [intros k; apply countLabels_get | apply countLabels_total]].
  intros k c. rewrite countLabels_In. split.
  - intros [Hin ->]. repeat split; auto. now apply occurrences_pos.
  - intros (Hin & Hc & _). auto.
Qed.

(** X3.  The order of the labels does not matter to the statistics: two
    label lists that are permutations of each other have the same count
    map, the same entropy and the same majority label, and permuting the
    three arguments of [calculateInformationGain] keeps the gain. *)
Theorem statistics_ignore_label_order
        (labels labels' leftLabels leftLabels' rightLabels rightLabels' : list Z) :
  Permutation labels labels' ->
  Permutation leftLabels leftLabels' ->
  Permutation rightLabels rightLabels' ->
  countLabels labels = countLabels labels' /\
  calculateEntropy labels = calculateEntropy labels' /\
  majorityLabel labels = majorityLabel labels' /\
  calculateInformationGain labels leftLabels rightLabels =
  calculateInformationGain labels' leftLabels' rightLabels'.
Proof.
  intros HP HL HR.
  split; [now apply countLabels_Permutation|].
  split; [now apply calculateEntropy_Permutation|].
  split; [now apply majorityLabel_Permutation|].
  unfold calculateInformationGain.
  now rewrite (calculateEntropy_Permutation _ _ HP),
    (calculateEntropy_Permutation _ _ HL), (calculateEntropy_Permutation _ _ HR),
    (Permutation_length HP), (Permutation_length HL), (Permutation_length HR).
Qed.

Lemma statistics_ignore_label_order_witness :
  countLabels [2; 0; 1; 0]%Z = countLabels [0; 0; 1; 2]%Z /\
  calculateEntropy [2; 0; 1; 0]%Z = calculateEntropy [0; 0; 1; 2]%Z /\
  majorityLabel [2; 0; 1; 0]%Z = majorityLabel [0; 0; 1; 2]%Z /\
  calculateInformationGain [2; 0; 1; 0]%Z [2; 0]%Z [1; 0]%Z =
  calculateInformationGain [0; 0; 1; 2]%Z [0; 2]%Z [0; 1]%Z.
Proof.
  apply statistics_ignore_label_order.
  - apply (Permutation_trans (l' := [0; 2; 1; 0]%Z)); [apply perm_swap|].
    apply perm_skip.
    apply (Permutation_trans (l' := [1; 2; 0]%Z)); [apply perm_swap|].
    apply (Permutation_trans (l' := [1; 0; 2]%Z)); [apply perm_skip, perm_swap|].
    apply perm_swap.
  - apply perm_swap.
  - apply perm_swap.
Defined.

(** ** Entropy of pure lists and the gain of a split *)

Lemma calculateEntropy_zero_iff_pure (labels : list Z) :
  calculateEntropy labels = 0%R <-> isPure labels = true.
Proof.
  split; [|apply calculateEntropy_pure].
  intros H. destruct (isPure labels) eqn:Hp; [reflexivity|].
  destruct (isPure_false labels Hp) as (a & b & Ha & Hb & Hab).
  pose proof (calculateEntropy_mixed labels a b Ha Hb Hab). lra.
Qed.

(** X2.  The entropy of a label list is never negative, and it is [0]
    exactly when [isPure] holds: a list that is not pure has strictly
    positive entropy. *)
Theorem entropy_is_zero_exactly_when_pure (labels : list Z) :
  (0 <= calculateEntropy labels)%R /\
  (calculateEntropy labels = 0%R <-> isPure labels = true) /\
  (isPure labels = false <-> (0 < calculateEntropy labels)%R).
Proof.
  pose proof (calculateEntropy_nonneg labels) as H0.
  pose proof (calculateEntropy_zero_iff_pure labels) as Hiff.
  split; [assumption|]. split; [assumption|].
  split.
  - intros Hp. destruct H0 as [Hlt|E]; [assumption|].
    symmetry in E. apply Hiff in E. congruence.
  - intros Hlt. destruct (isPure labels) eqn:Hp; [|reflexivity].
    pose proof (proj2 Hiff eq_refl). lra.
Qed.

(** X4.  Whatever the feature and the threshold, the information gain of
    the split that [splitLabels] makes of a non-empty label list with one
    label per row is at most the entropy of the list, and it is exactly
    [0] when one side of the split is empty. *)
Theorem information_gain_at_most_entropy
        (data : list (list R)) (labels : list Z) (f : Z) (t : R)
        (parts : list Z * list Z) :
  labels <> [] ->
  length data = length labels ->
  splitLabels data labels f t = Done parts ->
  (calculateInformationGain labels (fst parts) (snd parts)
   <= calculateEntropy labels)%R /\
  (fst parts = [] \/ snd parts = [] ->
   calculateInformationGain labels (fst parts) (snd parts) = 0%R).
Proof.
  intros Hne Hlen Hparts.
  destruct (splitLabels_parts _ _ _ _ _ Hparts Hlen) as (_ & Hr & Hl).
  split; [now apply gain_le_entropy|].
  intros [E|E].
  - rewrite (Hl E), E. now apply gain_left_empty.
  - rewrite (Hr E), E. now apply gain_right_empty.
Qed.

Lemma information_gain_at_most_entropy_witness :
  (calculateInformationGain boundaryLabels [0%Z] [0; 1; 1]%Z
   <= calculateEntropy boundaryLabels)%R /\
  calculateInformationGain boundaryLabels boundaryLabels [] = 0%R.
Proof.
  split.
  - apply (information_gain_at_most_entropy boundaryData boundaryLabels 0 1
             ([0%Z], [0; 1; 1]%Z));
      [discriminate | reflexivity | exact boundary_split_1].
  - apply (information_gain_at_most_entropy boundaryData boundaryLabels 0 4
             (boundaryLabels, []));
      [discriminate | reflexivity | exact boundary_split_4 | now right].
Defined.

(** ** The two split functions *)

Lemma vec_at_fault (A : Type) (v : list A) (i : Z) (e : fault) :
  vec_at v i = Fault e -> e = OutOfRange.
Proof.
  unfold vec_at. destruct (i <? 0)%Z; [congruence|].
  destruct (nth_error v (Z.to_nat i)); [discriminate | congruence].
Qed.

Lemma splitLabels_Done_iff (f : Z) (t : R) (data : list (list R)) :
  forall labels,
  (exists parts, splitLabels data labels f t = Done parts) <->
  Forall (hasFeature f) data /\ (length data <= length labels)%nat.
Proof.
  induction data as [|row data IH]; intros labels; simpl.
  - split; [intros _; split; [constructor | lia] | eauto].
  - split.
    + intros [parts H]. apply bind_Done in H. destruct H as [x [Hx H]].
      destruct labels as [|l labels]; [discriminate|].
      apply bind_Done in H. destruct H as [rest [Hrest _]].
      destruct (proj1 (IH labels) (ex_intro _ rest Hrest)) as [Hall Hlen].
      split; [constructor; [now exists x | assumption] | simpl; lia].
    + intros [Hall Hlen]. inversion Hall as [|? ? [x Hx] Hall']; subst.
      destruct labels as [|l labels]; [simpl in Hlen; lia|]. simpl in Hlen.
      assert (Hlen' : (length data <= length labels)%nat) by lia.
      destruct (proj2 (IH labels) (conj Hall' Hlen')) as [rest Hrest].
      rewrite Hx. simpl. rewrite Hrest. simpl. eauto.
Qed.

Lemma splitLabels_fault (f : Z) (t : R) (data : list (list R)) :
  forall labels e, splitLabels data labels f t = Fault e -> e = OutOfRange.
Proof.
  induction data as [|row data IH]; intros labels e; simpl; [discriminate|].
  destruct (vec_at row f) as [x|e'] eqn:Hx; simpl.
  - destruct labels as [|l labels]; [congruence|].
    destruct (splitLabels data labels f t) as [rest|e'] eqn:Hrest; simpl;
      [discriminate|].
    intros [= <-]. eapply IH; eauto.
  - intros [= <-]. eapply vec_at_fault; eauto.
Qed.

Lemma splitData_fault (f : Z) (t : R) (data : list (list R)) :
  forall labels e, splitData data labels f t = Fault e -> e = OutOfRange.
Proof.
  induction data as [|row data IH]; intros labels e; simpl; [discriminate|].
  destruct (vec_at row f) as [x|e'] eqn:Hx; simpl.
  - destruct labels as [|l labels]; [congruence|].
    destruct (splitData data labels f t) as [rest|e'] eqn:Hrest; simpl;
      [discriminate|].
    intros [= <-]. eapply IH; eauto.
  - intros [= <-]. eapply vec_at_fault; eauto.
Qed.

(** X5.  [splitLabels] and [splitData] return exactly when every row has
    the feature and there are at least as many labels as rows; otherwise
    they read a vector out of range, and that is the only way they
    fail. *)
Theorem split_succeeds_iff
        (data : list (list R)) (labels : list Z) (f : Z) (t : R) :
  ((exists parts, splitLabels data labels f t = Done parts) <->
   Forall (hasFeature f) data /\ (length data <= length labels)%nat) /\
  ((exists p, splitData data labels f t = Done p) <->
   Forall (hasFeature f) data /\ (length data <= length labels)%nat) /\
  (forall e, splitLabels data labels f t = Fault e -> e = OutOfRange) /\
  (forall e, splitData data labels f t = Fault e -> e = OutOfRange).
Proof.
  split; [apply splitLabels_Done_iff|]. split.
  - rewrite <- splitLabels_Done_iff. split.
    + intros [p Hp]. eexists. eapply splitData_labels; eauto.
    + intros [parts Hparts]. eapply splitData_succeeds; eauto.
  - split; [apply splitLabels_fault | apply splitData_fault].
Qed.

(** X6.  [splitData] is a stable partition: the left rows with their
    labels are the pairs of the input whose row passes [row[f] <= t], the
    right ones are the pairs that fail it, both in the order of the input
    and with one label per row; and the two label lists are the ones
    [splitLabels] returns for the same feature and threshold. *)
Theorem splitData_is_stable_partition
        (data : list (list R)) (labels : list Z) (f : Z) (t : R) (p : Partition) :
  splitData data labels f t = Done p ->
  combine (leftData p) (leftLabels p) =
    filter (fun rl => goesLeft f t (fst rl)) (combine data labels) /\
  combine (rightData p) (rightLabels p) =
    filter (fun rl => negb (goesLeft f t (fst rl))) (combine data labels) /\
  leftData p = filter (goesLeft f t) data /\
  rightData p = filter (fun row => negb (goesLeft f t row)) data /\
  length (leftData p) = length (leftLabels p) /\
  length (rightData p) = length (rightLabels p) /\
  splitLabels data labels f t = Done (leftLabels p, rightLabels p).
Proof.
  intros Hp.
  destruct (splitData_filter _ _ _ _ _ Hp) as (H1 & H2 & H3 & H4).
  destruct (splitData_shape _ _ _ _ _ Hp) as (H5 & H6 & _).
  repeat split; try assumption. now apply splitData_labels.
Qed.

Lemma splitData_is_stable_partition_witness :
  combine [[1%R]; [2%R]] [0; 0]%Z =
    filter (fun rl => goesLeft 0 2 (fst rl)) (combine boundaryData boundaryLabels) /\
  combine [[3%R]; [4%R]] [1; 1]%Z =
    filter (fun rl => negb (goesLeft 0 2 (fst rl)))
           (combine boundaryData boundaryLabels) /\
  [[1%R]; [2%R]] = filter (goesLeft 0 2) boundaryData /\
  [[3%R]; [4%R]] = filter (fun row => negb (goesLeft 0 2 row)) boundaryData /\
  length [[1%R]; [2%R]] = length [0; 0]%Z /\
  length [[3%R]; [4%R]] = length [1; 1]%Z /\
  splitLabels boundaryData boundaryLabels 0 2 = Done ([0; 0]%Z, [1; 1]%Z).
Proof.
  exact (splitData_is_stable_partition boundaryData boundaryLabels 0 2 _
           boundary_splitData).
Defined.

(** ** Termination and size of the recursion *)

Lemma buildTree_budget_irrelevant (fuel : nat) :
  forall fuel' data labels,
  length data = length labels ->
  (length data <= fuel)%nat -> (1 <= fuel)%nat -> (fuel <= fuel')%nat ->
  buildTree fuel' data labels = buildTree fuel data labels.
Proof.
  induction fuel as [|fuel IH]; intros fuel' data labels Hlen Hfuel Hpos Hle; [lia|].
  destruct fuel' as [|fuel']; [lia|].
  rewrite !buildTree_unfold. destruct (isPure labels); [reflexivity|].
  destruct (findBestSplit data labels) as [best|e] eqn:Hfind; [|reflexivity].
  simpl bind. destruct (Z.eqb_spec (bestFeature best) (-1)) as [_|Hbest];
    [reflexivity|].
  destruct (splitData data labels (bestFeature best) (bestThreshold best))
    as [p|e] eqn:Hp; [|reflexivity].
  simpl bind.
  destruct (selected_split_shrinks data labels best p Hlen Hfind Hbest Hp)
    as [HL HR].
  destruct (splitData_shape _ _ _ _ _ Hp) as (H1 & H2 & _).
  rewrite (IH fuel' (leftData p) (leftLabels p)) by (assumption || lia).
  rewrite (IH fuel' (rightData p) (rightLabels p)) by (assumption || lia).
  reflexivity.
Qed.

(** X7.  On a dataset with one label per row (whatever its rows), a split
    that [buildTree] selects leaves at least one row on each side, so both
    recursive calls receive strictly fewer rows, each with its label: the
    recursion ends after at most as many nested calls as there are rows.
    Accordingly the outcome of the embedding is the same for every budget
    above the number of rows, and it is never the exhaustion of the
    budget. *)
Theorem buildTree_recursion_is_well_founded
        (data : list (list R)) (labels : list Z) :
  length data = length labels ->
  (forall best p,
      findBestSplit data labels = Done best ->
      bestFeature best <> (-1)%Z ->
      splitData data labels (bestFeature best) (bestThreshold best) = Done p ->
      (0 < length (leftData p) < length data)%nat /\
      (0 < length (rightData p) < length data)%nat /\
      length (leftData p) = length (leftLabels p) /\
      length (rightData p) = length (rightLabels p)) /\
  (forall fuel,
      (length data < fuel)%nat ->
      buildTree fuel data labels = buildTree (S (length data)) data labels /\
      buildTree fuel data labels <> Fault FuelExhausted).
Proof.
  intros Hlen. split.
  - intros best p Hfind Hbest Hp.
    destruct (selected_split_shrinks data labels best p Hlen Hfind Hbest Hp)
      as [HL HR].
    destruct (splitData_shape _ _ _ _ _ Hp) as (H1 & H2 & _). auto.
  - intros fuel Hfuel. split.
    + apply buildTree_budget_irrelevant; (assumption || lia).
    + apply buildTree_sound_parallel; (assumption || lia).
Qed.

Lemma buildTree_recursion_is_well_founded_witness :
  (forall best p,
      findBestSplit boundaryData boundaryLabels = Done best ->
      bestFeature best <> (-1)%Z ->
      splitData boundaryData boundaryLabels (bestFeature best) (bestThreshold best)
      = Done p ->
      (0 < length (leftData p) < length boundaryData)%nat /\
      (0 < length (rightData p) < length boundaryData)%nat /\
      length (leftData p) = length (leftLabels p) /\
      length (rightData p) = length (rightLabels p)) /\
  (forall fuel,
      (length boundaryData < fuel)%nat ->
      buildTree fuel boundaryData boundaryLabels
      = buildTree (S (length boundaryData)) boundaryData boundaryLabels /\
      buildTree fuel boundaryData boundaryLabels <> Fault FuelExhausted).
Proof.
  apply (buildTree_recursion_is_well_founded boundaryData boundaryLabels).
  reflexivity.
Defined.

Lemma buildTree_size (n : nat) (fuel : nat) :
  forall data labels node,
  shaped n data labels ->
  buildTree fuel data labels = Done node ->
  (depth node < length data)%nat /\
  (1 <= leafCount node <= length data)%nat.
Proof.
  induction fuel as [|fuel IH]; intros data labels node Hs H; [discriminate|].
  destruct (buildTree_cases _ _ _ _ H)
    as [[l ->]|(fuel' & best & p & lft & rgt & E & _ & Hfind & Hbest & Hp & Hl & Hr & ->)].
  - destruct Hs as (Hne & _). simpl.
    destruct data; [congruence | simpl; lia].
  - injection E as <-.
    destruct (winning_split_proper n data labels best Hs Hfind Hbest)
      as (p' & Hp' & HL & HR & HlL & HlR).
    rewrite Hp in Hp'. injection Hp' as <-.
    destruct (splitData_shape _ _ _ _ _ Hp) as (_ & _ & Hsum & _).
    destruct (IH _ _ _ HL Hl) as [HdL HcL].
    destruct (IH _ _ _ HR Hr) as [HdR HcR].
    simpl. lia.
Qed.

(** X8.  After [fit] on an input satisfying its precondition, the tree has
    at most one leaf per training row and its depth is below the number
    of rows, so every descent of [predict] makes fewer comparisons than
    there are training rows. *)
Theorem built_tree_is_small
        (self : DecisionTree) (data : list (list R)) (labels : list Z) :
  fit_pre data labels ->
  exists node,
    fit self data labels = Done (mkTree (Some node)) /\
    (depth node < length data)%nat /\
    (1 <= leafCount node <= length data)%nat /\
    forall sample k lbl, reaches sample node k lbl -> (k < length data)%nat.
Proof.
  intros Hpre.
  destruct (fit_succeeds self data labels Hpre) as [node [Hnode Hfit]].
  destruct (fit_pre_shaped _ _ Hpre) as [n Hs].
  destruct (buildTree_size n _ _ _ _ Hs Hnode) as [Hd Hc].
  exists node. repeat split; try assumption; try lia.
  intros sample k lbl Hk.
  pose proof (reaches_predictNode _ _ _ _ Hk) as Hpred.
  destruct (predictNode_reaches _ _ _ Hpred) as [k' [Hk' Hle]].
  assert (k = k').
  { clear -Hk Hk'. revert k' Hk'.
    induction Hk as [node Hleaf
                    |node x child k lbl Hleaf Hx Hle Hchild _ IH
                    |node x child k lbl Hleaf Hx Hgt Hchild _ IH];
      intros k' Hk'; inversion Hk'; subst; try congruence.
    - f_equal. apply IH. congruence.
    - exfalso. rewrite Hx in *. match goal with H : Done _ = Done _ |- _ =>
        injection H as <- end. lra.
    - exfalso. rewrite Hx in *. match goal with H : Done _ = Done _ |- _ =>
        injection H as <- end. lra.
    - f_equal. apply IH. congruence. }
  subst k'. lia.
Qed.

Lemma built_tree_is_small_witness :
  exists node,
    fit (mkTree None) boundaryData boundaryLabels = Done (mkTree (Some node)) /\
    (depth node < length boundaryData)%nat /\
    (1 <= leafCount node <= length boundaryData)%nat /\
    forall sample k lbl, reaches sample node k lbl -> (k < length boundaryData)%nat.
Proof.
  exact (built_tree_is_small (mkTree None) boundaryData boundaryLabels
           fit_pre_boundary).
Defined.

(** ** What a learnt tree is made of *)

Lemma drawnFrom_mono (data data' : list (list R)) (labels labels' : list Z)
      (node : Node) :
  incl data data' -> incl labels labels' ->
  drawnFrom data labels node -> drawnFrom data' labels' node.
Proof.
  intros Hd Hl. induction 1 as [f t l Hin|f t l lft rgt [row [Hrow Hx]] _ IHl _ IHr].
  - constructor. now apply Hl.
  - constructor; [exists row; split; [now apply Hd | assumption]| |]; assumption.
Qed.

Lemma splits_incl (labels leftLabels rightLabels : list Z) :
  splits labels leftLabels rightLabels ->
  incl leftLabels labels /\ incl rightLabels labels.
Proof.
  intros Hs. split; intros k Hk; apply occurrences_pos;
    apply occurrences_pos in Hk; rewrite (Hs k);
    pose proof (occurrences_nonneg k leftLabels);
    pose proof (occurrences_nonneg k rightLabels); lia.
Qed.

Lemma buildTree_drawnFrom (n : nat) (fuel : nat) :
  forall data labels node,
  shaped n data labels ->
  buildTree fuel data labels = Done node -> drawnFrom data labels node.
Proof.
  induction fuel as [|fuel IH]; intros data labels node Hs H; [discriminate|].
  pose proof (shaped_labels _ _ _ Hs) as Hne.
  pose proof H as H'. rewrite buildTree_unfold in H'.
  destruct (isPure labels) eqn:Hpure.
  - destruct labels as [|l0 rest]; [congruence|].
    rewrite vec_at_head in H'. injection H' as <-. constructor. now left.
  - apply bind_Done in H'. destruct H' as [best [Hfind H']].
    destruct (Z.eqb_spec (bestFeature best) (-1)) as [_|Hbest].
    + apply bind_Done in H'. destruct H' as [m [Hm H']]. injection H' as <-.
      destruct (majorityLabel_spec labels Hne) as (m' & Hm' & Hin & _).
      rewrite Hm in Hm'. injection Hm' as <-. now constructor.
    + apply bind_Done in H'. destruct H' as [p [Hp H']].
      apply bind_Done in H'. destruct H' as [lft [Hl H']].
      apply bind_Done in H'. destruct H' as [rgt [Hr H']]. injection H' as <-.
      destruct (winning_split_proper n data labels best Hs Hfind Hbest)
        as (p' & Hp' & HL & HR & _).
      rewrite Hp in Hp'. injection Hp' as <-.
      destruct Hs as (Hnd & Hrect & Hlen).
      destruct (splitData_shape _ _ _ _ _ Hp) as (_ & _ & _ & Hsub & _).
      destruct (Hsub (fun row => In row data)) as [HinL HinR];
        [rewrite Forall_forall; auto|].
      rewrite Forall_forall in HinL, HinR.
      pose proof (splitLabels_splits _ _ _ _ _ (splitData_labels _ _ _ _ _ Hp) Hlen)
        as Hsplit.
      destruct (splits_incl _ _ _ Hsplit) as [HlL HlR]. simpl in HlL, HlR.
      unfold setChildren, newNode. simpl. constructor.
      * destruct (findBestSplit_outcome n data labels Hnd Hrect Hlen)
          as [best' [Hfind' Hcases]].
        rewrite Hfind in Hfind'. injection Hfind' as <-.
        destruct Hcases as [[-> _]|(k & [f t] & Hk & -> & _)];
          [now contradiction Hbest|].
        simpl. apply (candidates_exact n data f t Hrect).
        eapply nth_error_In; eauto.
      * apply (drawnFrom_mono (leftData p) data (leftLabels p) labels);
          [exact HinL | exact HlL | eapply IH; eauto].
      * apply (drawnFrom_mono (rightData p) data (rightLabels p) labels);
          [exact HinR | exact HlR | eapply IH; eauto].
Qed.

Lemma predictNode_label_drawn (data : list (list R)) (labels : list Z)
      (sample : list R) (node : Node) :
  drawnFrom data labels node ->
  forall lbl, predictNode node sample = Done lbl -> In lbl labels.
Proof.
  induction 1 as [f t l Hin|f t l lft rgt _ _ IHl _ IHr]; intros lbl H; simpl in H.
  - now injection H as <-.
  - apply bind_Done in H. destruct H as [x [_ H]].
    destruct (Rle_dec x t); auto.
Qed.

(** X11.  After [fit] on an input satisfying its precondition, every leaf
    of the tree carries a label of the training labels and every decision
    node compares a feature with a value that some training row has for
    that feature; so [predict] only ever returns training labels. *)
Theorem learnt_tree_is_drawn_from_the_data
        (self : DecisionTree) (data : list (list R)) (labels : list Z) :
  fit_pre data labels ->
  exists node,
    fit self data labels = Done (mkTree (Some node)) /\
    drawnFrom data labels node /\
    forall sample lbl,
      predict (mkTree (Some node)) sample = Done lbl -> In lbl labels.
Proof.
  intros Hpre.
  destruct (fit_succeeds self data labels Hpre) as [node [Hnode Hfit]].
  destruct (fit_pre_shaped _ _ Hpre) as [n Hs].
  pose proof (buildTree_drawnFrom n _ _ _ _ Hs Hnode) as Hdrawn.
  exists node. repeat split; try assumption.
  intros sample lbl. now apply predictNode_label_drawn with (data := data).
Qed.

Lemma learnt_tree_is_drawn_from_the_data_witness :
  exists node,
    fit (mkTree None) boundaryData boundaryLabels = Done (mkTree (Some node)) /\
    drawnFrom boundaryData boundaryLabels node /\
    forall sample lbl,
      predict (mkTree (Some node)) sample = Done lbl -> In lbl boundaryLabels.
Proof.
  exact (learnt_tree_is_drawn_from_the_data (mkTree None) boundaryData
           boundaryLabels fit_pre_boundary).
Defined.

(** ** The features [predict] reads *)

Lemma vec_at_agree (s1 s2 : list R) (n : nat) (f : Z) :
  (forall i, (i < n)%nat -> nth_error s1 i = nth_error s2 i) ->
  (0 <= f < Z.of_nat n)%Z -> vec_at s1 f = vec_at s2 f.
Proof.
  intros H Hf. unfold vec_at. destruct (f <? 0)%Z; [reflexivity|].
  now rewrite (H (Z.to_nat f)) by lia.
Qed.

Lemma predictNode_agree (n : nat) (s1 s2 : list R) (node : Node) :
  indexable n node ->
  (forall i, (i < n)%nat -> nth_error s1 i = nth_error s2 i) ->
  predictNode node s1 = predictNode node s2.
Proof.
  intros Hidx Hagree.
  induction Hidx as [f t l lft rgt|f t l lft rgt Hf _ IHl _ IHr]; simpl;
    [reflexivity|].
  rewrite (vec_at_agree s1 s2 n f Hagree Hf).
  destruct (vec_at s2 f) as [x|e]; simpl; [|reflexivity].
  destruct (Rle_dec x t); assumption.
Qed.

(** X13.  After [fit] on an input satisfying its precondition, [predict]
    reads only the features the training rows have: two samples that
    agree on those positions get the same outcome, so values beyond them
    are ignored, and a sample extended by further values is predicted
    like the sample itself. *)
Theorem predict_reads_only_training_features
        (self : DecisionTree) (data : list (list R)) (labels : list Z) :
  fit_pre data labels ->
  exists tree,
    fit self data labels = Done tree /\
    (forall s1 s2,
        (forall i, (i < length (hd [] data))%nat ->
                   nth_error s1 i = nth_error s2 i) ->
        predict tree s1 = predict tree s2) /\
    (forall sample more,
        length sample = length (hd [] data) ->
        predict tree (sample ++ more) = predict tree sample).
Proof.
  intros Hpre.
  destruct (fit_succeeds self data labels Hpre) as [node [Hnode Hfit]].
  destruct (fit_pre_shaped _ _ Hpre) as [n Hs].
  pose proof (buildTree_indexable n _ _ _ _ Hs Hnode) as Hidx.
  assert (Hn : length (hd [] data) = n).
  { destruct Hs as (Hne & Hrect & _).
    destruct data as [|row0 data]; [congruence|]. now inversion Hrect. }
  exists (mkTree (Some node)). split; [assumption|]. rewrite Hn. split.
  - intros s1 s2 Hagree. now apply (predictNode_agree n).
  - intros sample more Hlen. apply (predictNode_agree n); [assumption|].
    intros i Hi. apply nth_error_app1. lia.
Qed.

Lemma predict_reads_only_training_features_witness :
  exists tree,
    fit (mkTree None) boundaryData boundaryLabels = Done tree /\
    (forall s1 s2,
        (forall i, (i < length (hd [] boundaryData))%nat ->
                   nth_error s1 i = nth_error s2 i) ->
        predict tree s1 = predict tree s2) /\
    (forall sample more,
        length sample = length (hd [] boundaryData) ->
        predict tree (sample ++ more) = predict tree sample).
Proof.
  exact (predict_reads_only_training_features (mkTree None) boundaryData
           boundaryLabels fit_pre_boundary).
Defined.

(** ** Inputs outside the precondition *)

Lemma searchSamples_fault_first (data : list (list R)) (labels : list Z)
      (feature : Z) (sample : list R) (rest : list (list R)) (best : Best) (x : R) :
  vec_at sample feature = Done x ->
  (length labels < length data)%nat ->
  searchSamples data labels feature (sample :: rest) best = Fault OutOfRange.
Proof.
  intros Hx Hlen. simpl. rewrite Hx. simpl.
  destruct (splitLabels data labels feature x) as [parts|e] eqn:Hs.
  - exfalso.
    destruct (proj1 (splitLabels_Done_iff feature x data labels)
                    (ex_intro _ parts Hs)) as [_ Hle]. lia.
  - simpl. f_equal. eapply splitLabels_fault; eauto.
Qed.

Lemma findBestSplit_too_few_labels (data : list (list R)) (labels : list Z) :
  (length labels < length data)%nat -> hd [] data <> [] ->
  findBestSplit data labels = Fault OutOfRange.
Proof.
  intros Hlen Hrow.
  destruct data as [|row0 data]; [simpl in Hlen; lia|].
  destruct row0 as [|x row0]; [now contradiction Hrow|].
  unfold findBestSplit. rewrite vec_at_head. cbn [bind].
  change (featureRange (length (x :: row0)))
    with (0%Z :: map Z.of_nat (seq 1 (length row0))).
  cbn [searchFeatures].
  rewrite (searchSamples_fault_first ((x :: row0) :: data) labels 0
             (x :: row0) data initBest x)
    by (reflexivity || assumption).
  reflexivity.
Qed.

(** X12.  [fit] performs no validation.  With no labels it reads
    [labels[0]] out of range; with an empty dataset and labels that are
    not all equal it reads [data[0]] out of range; and with fewer labels
    than rows, labels that are not all equal and a first row that has a
    feature, the first candidate split already reads [labels] out of
    range. *)
Theorem fit_reads_out_of_range
        (self : DecisionTree) (data : list (list R)) (labels : list Z) :
  (labels = [] -> fit self data labels = Fault OutOfRange) /\
  (data = [] -> isPure labels = false ->
   fit self data labels = Fault OutOfRange) /\
  (isPure labels = false -> (length labels < length data)%nat ->
   hd [] data <> [] -> fit self data labels = Fault OutOfRange).
Proof.
  unfold fit. rewrite buildTree_unfold. split; [|split].
  - intros ->. reflexivity.
  - intros -> ->. reflexivity.
  - intros -> Hlen Hrow.
    now rewrite (findBestSplit_too_few_labels data labels Hlen Hrow).
Qed.

Lemma fit_reads_out_of_range_witness :
  fit (mkTree None) [[1%R]; [2%R]; [3%R]] [0; 1]%Z = Fault OutOfRange /\
  fit (mkTree None) [] [0; 1]%Z = Fault OutOfRange /\
  fit (mkTree None) [[1%R]] [] = Fault OutOfRange.
Proof.
  split; [|split].
  - apply (proj2 (proj2 (fit_reads_out_of_range
                           (mkTree None) [[1%R]; [2%R]; [3%R]] [0; 1]%Z)));
      [reflexivity | simpl; lia | discriminate].
  - apply (proj1 (proj2 (fit_reads_out_of_range (mkTree None) [] [0; 1]%Z)));
      reflexivity.
  - apply (proj1 (fit_reads_out_of_range (mkTree None) [[1%R]] [])).
    reflexivity.
Defined.

(** ** Predictions on the training rows *)

Lemma invoked_prepend (top call call' : list (list R) * list Z) :
  invokes top call -> invoked call call' -> invoked top call'.
Proof.
  intros Hfirst. induction 1 as [|c c' _ IH Hstep].
  - apply invoked_step with (call := top); [apply invoked_top | assumption].
  - apply invoked_step with (call := c); assumption.
Qed.

Lemma splitData_routes (f : Z) (t : R) (data : list (list R)) (labels : list Z)
      (p : Partition) (row : list R) (lab : Z) :
  splitData data labels f t = Done p ->
  In (row, lab) (combine data labels) ->
  exists x, vec_at row f = Done x /\
            ((x <= t)%R -> In (row, lab) (combine (leftData p) (leftLabels p))) /\
            ((x > t)%R -> In (row, lab) (combine (rightData p) (rightLabels p))).
Proof.
  intros Hp Hin.
  destruct (splitData_filter _ _ _ _ _ Hp) as (HL & HR & _).
  assert (Hfeat : hasFeature f row).
  { destruct (proj1 (splitLabels_Done_iff f t data labels)
                    (ex_intro _ _ (splitData_labels _ _ _ _ _ Hp))) as [Hall _].
    rewrite Forall_forall in Hall. apply Hall. eapply in_combine_l; eauto. }
  destruct Hfeat as [x Hx]. exists x. split; [assumption|].
  rewrite HL, HR, !filter_In. simpl. rewrite (goesLeft_value f t row x Hx).
  split; intros H; (split; [assumption|]); destruct (Rle_dec x t);
    try reflexivity; lra.
Qed.

Lemma pure_labels_agree (data : list (list R)) (l0 : Z) (rest : list Z)
      (row : list R) (lab : Z) :
  isPure (l0 :: rest) = true ->
  In (row, lab) (combine data (l0 :: rest)) -> lab = l0.
Proof.
  intros Hpure Hin. apply isPure_cons in Hpure. rewrite Forall_forall in Hpure.
  apply in_combine_r in Hin. destruct Hin as [<-|Hin]; [reflexivity|].
  now apply Hpure.
Qed.

(** A training row descends to the leaf made for the partition it ended
    up in. *)
Lemma buildTree_routes (fuel : nat) :
  forall data labels node row lab,
  buildTree fuel data labels = Done node ->
  In (row, lab) (combine data labels) ->
  exists d l lbl,
    invoked (data, labels) (d, l) /\
    In (row, lab) (combine d l) /\
    predictNode node row = Done lbl /\
    ((isPure l = true /\ lbl = lab) \/
     (isPure l = false /\ majorityLabel l = Done lbl /\
      exists best, findBestSplit d l = Done best /\
                   bestFeature best = (-1)%Z)).
Proof.
  induction fuel as [|fuel IH]; intros data labels node row lab H Hin;
    [discriminate|].
  rewrite buildTree_unfold in H. destruct (isPure labels) eqn:Hpure.
  - apply bind_Done in H. destruct H as [l0 [Hl0 H]]. injection H as <-.
    destruct labels as [|l0' rest]; [discriminate|].
    rewrite vec_at_head in Hl0. injection Hl0 as ->.
    exists data, (l0 :: rest), l0.
    split; [apply invoked_top|]. split; [assumption|]. split; [reflexivity|].
    left. split; [assumption|]. symmetry. eapply pure_labels_agree; eauto.
  - apply bind_Done in H. destruct H as [best [Hfind H]].
    destruct (Z.eqb_spec (bestFeature best) (-1)) as [E|Hbest].
    + apply bind_Done in H. destruct H as [m [Hm H]]. injection H as <-.
      exists data, labels, m.
      split; [apply invoked_top|]. split; [assumption|]. split; [reflexivity|].
      right. eauto.
    + apply bind_Done in H. destruct H as [p [Hp H]].
      apply bind_Done in H. destruct H as [lft [Hl H]].
      apply bind_Done in H. destruct H as [rgt [Hr H]]. injection H as <-.
      destruct (splitData_routes _ _ _ _ _ _ _ Hp Hin) as (x & Hx & Hleft & Hright).
      unfold setChildren, newNode. simpl. rewrite Hx. simpl.
      destruct (Rle_dec x (bestThreshold best)) as [Hle|Hgt].
      * destruct (IH _ _ _ _ _ Hl (Hleft Hle)) as (d & l & lbl & Hinv & Hrest).
        exists d, l, lbl. split; [|assumption].
        apply invoked_prepend with (call := (leftData p, leftLabels p));
          [eapply invokes_left; eauto | assumption].
      * destruct (IH _ _ _ _ _ Hr (Hright ltac:(lra))) as (d & l & lbl & Hinv & Hrest).
        exists d, l, lbl. split; [|assumption].
        apply invoked_prepend with (call := (rightData p, rightLabels p));
          [eapply invokes_right; eauto | assumption].
Qed.

(** X9.  After [fit] on an input satisfying its precondition, [predict] on
    a training row returns the label of the leaf built for the partition
    the row ended up in: the row's own label when that partition is pure,
    and otherwise the majority label of a partition on which no candidate
    split has positive gain. *)
Theorem training_rows_reach_their_leaf
        (self : DecisionTree) (data : list (list R)) (labels : list Z) :
  fit_pre data labels ->
  exists tree,
    fit self data labels = Done tree /\
    forall row lab,
      In (row, lab) (combine data labels) ->
      exists d l lbl,
        invoked (data, labels) (d, l) /\
        In (row, lab) (combine d l) /\
        predict tree row = Done lbl /\
        ((isPure l = true /\ lbl = lab) \/
         (isPure l = false /\ majorityLabel l = Done lbl /\
          exists best, findBestSplit d l = Done best /\
                       bestFeature best = (-1)%Z)).
Proof.
  intros Hpre.
  destruct (fit_succeeds self data labels Hpre) as [node [Hnode Hfit]].
  exists (mkTree (Some node)). split; [assumption|].
  intros row lab Hin. exact (buildTree_routes _ _ _ _ _ _ Hnode Hin).
Qed.

Lemma training_rows_reach_their_leaf_witness :
  exists tree,
    fit (mkTree None) boundaryData boundaryLabels = Done tree /\
    forall row lab,
      In (row, lab) (combine boundaryData boundaryLabels) ->
      exists d l lbl,
        invoked (boundaryData, boundaryLabels) (d, l) /\
        In (row, lab) (combine d l) /\
        predict tree row = Done lbl /\
        ((isPure l = true /\ lbl = lab) \/
         (isPure l = false /\ majorityLabel l = Done lbl /\
          exists best, findBestSplit d l = Done best /\
                       bestFeature best = (-1)%Z)).
Proof.
  exact (training_rows_reach_their_leaf (mkTree None) boundaryData boundaryLabels
           fit_pre_boundary).
Defined.

Lemma invokes_incl (call call' : list (list R) * list Z) :
  invokes call call' ->
  incl (combine (fst call') (snd call')) (combine (fst call) (snd call)).
Proof.
  intros [data labels best p _ _ _ Hp|data labels best p _ _ _ Hp]; simpl;
    destruct (splitData_filter _ _ _ _ _ Hp) as (HL & HR & _);
    rewrite ?HL, ?HR; intros rl Hrl; apply filter_In in Hrl; tauto.
Qed.

Lemma invoked_incl (top call : list (list R) * list Z) :
  invoked top call ->
  incl (combine (fst call) (snd call)) (combine (fst top) (snd top)).
Proof.
  induction 1 as [|c c' _ IH Hstep]; [apply incl_refl|].
  eapply incl_tran; [apply invokes_incl; eassumption | exact IH].
Qed.

(** X10.  Training-set recall.  On an input satisfying [fit]'s
    precondition in which some feature determines the label (rows with
    different labels differ in that feature), the learnt tree returns,
    for every training row, the label the row was given. *)
Theorem separable_training_set_is_recalled
        (self : DecisionTree) (data : list (list R)) (labels : list Z) (f : Z) :
  fit_pre data labels ->
  (0 <= f < Z.of_nat (length (hd [] data)))%Z ->
  determinesLabel f data labels ->
  exists tree,
    fit self data labels = Done tree /\
    forall row lab,
      In (row, lab) (combine data labels) -> predict tree row = Done lab.
Proof.
  intros Hpre Hf Hdet.
  destruct (fit_succeeds self data labels Hpre) as [node [Hnode Hfit]].
  destruct (fit_pre_shaped _ _ Hpre) as [n Hs].
  assert (Hn : length (hd [] data) = n).
  { destruct Hs as (Hne & Hrect & _).
    destruct data as [|row0 data]; [congruence|]. now inversion Hrect. }
  rewrite Hn in Hf.
  exists (mkTree (Some node)). split; [assumption|].
  intros row lab Hin.
  destruct (buildTree_routes _ _ _ _ _ _ Hnode Hin)
    as (d & l & lbl & Hinv & Hin' & Hpred & [[_ ->]|(Hpure & _ & best & Hfind & Hbest)]);
    [assumption|].
  exfalso.
  pose proof (invoked_shaped n (data, labels) (d, l) Hs Hinv) as Hs'.
  pose proof (invoked_incl _ _ Hinv) as Hincl. simpl in Hs', Hincl.
  apply (impure_partition_splits n f d l best Hs' Hf); try assumption.
  intros r1 l1 r2 l2 x H1 H2. apply Hdet; now apply Hincl.
Qed.

Lemma separable_training_set_is_recalled_witness :
  exists tree,
    fit (mkTree None) boundaryData boundaryLabels = Done tree /\
    forall row lab,
      In (row, lab) (combine boundaryData boundaryLabels) ->
      predict tree row = Done lab.
Proof.
  apply (separable_training_set_is_recalled (mkTree None) boundaryData
           boundaryLabels 0).
  - exact fit_pre_boundary.
  - simpl. lia.
  - exact boundary_feature_determines_label.
Defined.

(** ** Optimality of the split search *)

Lemma splitLabels_same_test (f : Z) (t t' : R) (data : list (list R)) :
  forall labels,
  (forall row, In row data -> goesLeft f t row = goesLeft f t' row) ->
  Forall (hasFeature f) data ->
  splitLabels data labels f t = splitLabels data labels f t'.
Proof.
  induction data as [|row data IH]; intros labels Hsame Hall; [reflexivity|].
  inversion Hall as [|? ? [x Hx] Hall']; subst.
  pose proof (Hsame row (or_introl eq_refl)) as Hrow.
  rewrite !(goesLeft_value f _ row x Hx) in Hrow.
  simpl. rewrite Hx. simpl. destruct labels as [|l labels]; [reflexivity|].
  rewrite (IH labels) by (auto; intros r Hr; apply Hsame; now right).
  destruct (splitLabels data labels f t') as [rest|e]; simpl; [|reflexivity].
  destruct (Rle_dec x t), (Rle_dec x t'); try reflexivity; discriminate.
Qed.

(** The gain of any threshold is the gain of some candidate, or [0]. *)
Lemma threshold_gain_is_candidate_gain (n : nat) (data : list (list R))
      (labels : list Z) (f : Z) (t : R) :
  shaped n data labels -> (0 <= f < Z.of_nat n)%Z ->
  exists parts,
    splitLabels data labels f t = Done parts /\
    (calculateInformationGain labels (fst parts) (snd parts) = 0%R \/
     exists c, In c (candidates data) /\
               calculateInformationGain labels (fst parts) (snd parts)
               = gainAt data labels c).
Proof.
  intros Hs Hf. pose proof (shaped_labels _ _ _ Hs) as Hlne.
  destruct Hs as (Hne & Hrect & Hlen).
  destruct (splitLabels_succeeds n f t data Hrect Hf labels Hlen) as [parts Hparts].
  exists parts. split; [assumption|].
  assert (Hvalue : forall row, In row data ->
                   vec_at row f = Done (nth (Z.to_nat f) row 0%R)).
  { intros row Hin. apply vec_at_nth.
    unfold rectangular in Hrect. rewrite Forall_forall in Hrect.
    now rewrite (Hrect row Hin). }
  assert (Hfeat : Forall (hasFeature f) data).
  { rewrite Forall_forall. intros row Hin. eexists. now apply Hvalue. }
  destruct (filter (goesLeft f t) data) as [|r rs] eqn:Hpass.
  - left.
    destruct (splitData_succeeds _ _ _ _ _ Hparts) as [p Hp].
    pose proof (splitData_labels _ _ _ _ _ Hp) as Hpl.
    rewrite Hparts in Hpl. injection Hpl as ->.
    destruct (splitData_filter _ _ _ _ _ Hp) as (_ & _ & HL & _).
    destruct (splitData_shape _ _ _ _ _ Hp) as (HlenL & _).
    rewrite HL, Hpass in HlenL. simpl in *.
    assert (E : leftLabels p = []) by (destruct (leftLabels p); [reflexivity | discriminate]).
    destruct (splitLabels_parts _ _ _ _ _ Hparts Hlen) as (_ & _ & Hl).
    simpl in Hl. rewrite (Hl E), E. now apply gain_left_empty.
  - right.
    destruct (least_value _ (fun row => (- nth (Z.to_nat f) row 0)%R)
                          (filter (goesLeft f t) data))
      as (r0 & Hr0 & Hmax); [rewrite Hpass; discriminate|].
    apply filter_In in Hr0. destruct Hr0 as [Hr0 Ht0].
    set (v := nth (Z.to_nat f) r0 0%R) in *.
    rewrite (goesLeft_value f t r0 v (Hvalue r0 Hr0)) in Ht0.
    destruct (Rle_dec v t) as [Hvt|]; [|discriminate].
    exists (f, v). split.
    + apply (candidates_exact n data f v Hrect). exists r0. auto.
    + assert (Hsame : splitLabels data labels f t = splitLabels data labels f v).
      { apply splitLabels_same_test; [|assumption].
        intros row Hin.
        rewrite !(goesLeft_value f _ row _ (Hvalue row Hin)).
        destruct (Rle_dec (nth (Z.to_nat f) row 0%R) t) as [Hle|Hgt];
          destruct (Rle_dec (nth (Z.to_nat f) row 0%R) v) as [Hle'|Hgt'];
          try reflexivity; exfalso.
        - assert (Hin' : In row (filter (goesLeft f t) data)).
          { apply filter_In. split; [assumption|].
            rewrite (goesLeft_value f t row _ (Hvalue row Hin)).
            destruct (Rle_dec (nth (Z.to_nat f) row 0%R) t); [reflexivity | lra]. }
          specialize (Hmax row Hin'). simpl in Hmax. fold v in Hmax. lra.
        - lra. }
      unfold gainAt, candidateGain. simpl fst. simpl snd.
      rewrite <- Hsame, Hparts. reflexivity.
Qed.

(** X14.  Taking the candidate thresholds from the data loses nothing: on
    an input satisfying [fit]'s precondition, the gain the search ends
    with is at least the gain of the split at any feature and any real
    threshold whatever. *)
Theorem search_is_optimal_over_all_thresholds
        (data : list (list R)) (labels : list Z) :
  fit_pre data labels ->
  exists best,
    findBestSplit data labels = Done best /\
    (0 <= bestInfoGain best)%R /\
    forall f t,
      (0 <= f < Z.of_nat (length (hd [] data)))%Z ->
      exists parts,
        splitLabels data labels f t = Done parts /\
        (calculateInformationGain labels (fst parts) (snd parts)
         <= bestInfoGain best)%R.
Proof.
  intros Hpre. destruct (fit_pre_shaped _ _ Hpre) as [n Hs].
  assert (Hn : length (hd [] data) = n).
  { destruct Hs as (Hne & Hrect & _).
    destruct data as [|row0 data]; [congruence|]. now inversion Hrect. }
  rewrite Hn.
  pose proof Hs as (Hne & Hrect & Hlen).
  destruct (findBestSplit_outcome n data labels Hne Hrect Hlen)
    as [best [Hfind Hcases]].
  exists best. split; [assumption|].
  assert (Hbound : (0 <= bestInfoGain best)%R /\
                   forall c, In c (candidates data) ->
                             (gainAt data labels c <= bestInfoGain best)%R).
  { destruct Hcases as [[-> Hall]|(k & c & Hk & -> & Hpos & Hmax)]; simpl.
    - split; [lra | exact Hall].
    - split; [lra|]. intros c' Hc'.
      destruct (In_nth_error _ _ Hc') as [j Hj]. now apply (Hmax j). }
  destruct Hbound as [H0 Hall]. split; [assumption|].
  intros f t Hf.
  destruct (threshold_gain_is_candidate_gain n data labels f t Hs Hf)
    as (parts & Hparts & [E|(c & Hc & E)]);
    exists parts; (split; [assumption|]); rewrite E; [lra | now apply Hall].
Qed.

Lemma search_is_optimal_over_all_thresholds_witness :
  exists best,
    findBestSplit boundaryData boundaryLabels = Done best /\
    (0 <= bestInfoGain best)%R /\
    forall f t,
      (0 <= f < Z.of_nat (length (hd [] boundaryData)))%Z ->
      exists parts,
        splitLabels boundaryData boundaryLabels f t = Done parts /\
        (calculateInformationGain boundaryLabels (fst parts) (snd parts)
         <= bestInfoGain best)%R.
Proof.
  exact (search_is_optimal_over_all_thresholds boundaryData boundaryLabels
           fit_pre_boundary).
Defined.
